(** * Salted SHA-1 (package [ssha1] of kristinjeanna/crypto)

    A shallow embedding of [ssha1/ssha1.go] together with the library
    functions it calls ([crypto/sha1], [encoding/hex], [encoding/base64],
    [crypto/rand], [bytes.Equal], [append]), and the properties of the
    package that follow from the code.

    Go byte slices are modelled twice:
    - by their contents ([list byte]) in module [ssha1], where a [nil]
      slice is told apart from an empty one only where the code tests it
      ([Sum]'s salt argument);
    - as slice headers over a store of backing arrays in module [mem], where
      [append] writes in place when the capacity allows it. *)

From Stdlib Require Import ZArith NArith Lia List Strings.String Strings.Ascii Init.Byte Strings.Byte Bool.
From stdpp Require Import base list.

Local Open Scope Z_scope.

(** ** Bytes *)

Definition byte_to_Z (b : byte) : Z := Z.of_N (Byte.to_N b).

(** Conversion [byte(x)] of an unsigned integer: the low eight bits. *)
Definition byte_of_Z (z : Z) : byte :=
  match Byte.of_N (Z.to_N (z mod 256)) with
  | Some b => b
  | None => x00
  end.

(** [[]byte("...")] *)
Definition bytes_of_string (s : string) : list byte := list_byte_of_string s.

(** [s[i]] on a string constant; the code never indexes out of range. *)
Definition string_at (s : string) (i : N) : ascii :=
  match String.get (N.to_nat i) s with
  | Some c => c
  | None => Ascii.zero
  end.

(** The position of the first occurrence of [c] in [s], counted from [i]. *)
Fixpoint string_index (c : ascii) (s : string) (i : N) : option N :=
  match s with
  | EmptyString => None
  | String c' r => if Ascii.eqb c c' then Some i else string_index c r (N.succ i)
  end.

Definition string_is_empty (s : string) : bool :=
  match s with
  | EmptyString => true
  | String _ _ => false
  end.

(** ** crypto/sha1 *)

Module sha1.

(** The size of a SHA-1 checksum in bytes. *)
Definition Size : nat := 20.

(** The blocksize of SHA-1 in bytes. *)
Definition BlockSize : nat := 64.

Definition chunk : nat := 64.

Definition init0 : Z := 0x67452301.
Definition init1 : Z := 0xEFCDAB89.
Definition init2 : Z := 0x98BADCFE.
Definition init3 : Z := 0x10325476.
Definition init4 : Z := 0xC3D2E1F0.

Definition _K0 : Z := 0x5A827999.
Definition _K1 : Z := 0x6ED9EBA1.
Definition _K2 : Z := 0x8F1BBCDC.
Definition _K3 : Z := 0xCA62C1D6.

(** Arithmetic on [uint32] wraps around. *)
Definition u32 (x : Z) : Z := x mod 2 ^ 32.

Definition add32 (x y : Z) : Z := u32 (x + y).

(** [^x] on a [uint32]. *)
Definition not32 (x : Z) : Z := Z.lxor x 0xFFFFFFFF.

(** [bits.RotateLeft32(x, k)] for [0 < k < 32]. *)
Definition RotateLeft32 (x k : Z) : Z :=
  Z.lor (u32 (Z.shiftl x k)) (Z.shiftr x (32 - k)).

(** [uint32(p[j])<<24 | uint32(p[j+1])<<16 | uint32(p[j+2])<<8 | uint32(p[j+3])] *)
Definition be32 (b0 b1 b2 b3 : byte) : Z :=
  Z.lor (Z.lor (Z.lor (Z.shiftl (byte_to_Z b0) 24) (Z.shiftl (byte_to_Z b1) 16))
               (Z.shiftl (byte_to_Z b2) 8))
        (byte_to_Z b3).

(** The sixteen big-endian words of a chunk. *)
Fixpoint words (p : list byte) : list Z :=
  match p with
  | b0 :: b1 :: b2 :: b3 :: r => be32 b0 b1 b2 b3 :: words r
  | _ => []
  end.

(** The message schedule.  [blockGeneric] keeps the last sixteen words in
    a circular buffer [w[i&0xf]]; here [win] is that window, oldest word
    first, and the function returns the words in the order the rounds
    consume them: [w[i&0xf] = RotateLeft32(w[(i-3)&0xf] ^ w[(i-8)&0xf] ^
    w[(i-14)&0xf] ^ w[i&0xf], 1)]. *)
Fixpoint schedule (n : nat) (win : list Z) : list Z :=
  match n with
  | O => []
  | S n' =>
      match win with
      | w0 :: rest =>
          let tmp :=
            Z.lxor (Z.lxor (Z.lxor (nth 12 rest 0) (nth 7 rest 0)) (nth 1 rest 0)) w0 in
          w0 :: schedule n' (rest ++ [RotateLeft32 tmp 1])
      | [] => []
      end
  end.

Record regs := Regs { ra : Z; rb : Z; rc : Z; rd : Z; re : Z }.

(** The round function and constant of round [i]. *)
Definition f_K (i : nat) (b c d : Z) : Z * Z :=
  if (i <? 20)%nat then (Z.lor (Z.land b c) (Z.land (not32 b) d), _K0)
  else if (i <? 40)%nat then (Z.lxor (Z.lxor b c) d, _K1)
  else if (i <? 60)%nat then (Z.lor (Z.land (Z.lor b c) d) (Z.land b c), _K2)
  else (Z.lxor (Z.lxor b c) d, _K3).

(** One round:
    [t := bits.RotateLeft32(a, 5) + f + e + w[i&0xf] + K;
     a, b, c, d, e = t, a, bits.RotateLeft32(b, 30), c, d]. *)
Definition round (r : regs) (iw : nat * Z) : regs :=
  let '(f, k) := f_K (fst iw) (rb r) (rc r) (rd r) in
  let t := add32 (add32 (add32 (add32 (RotateLeft32 (ra r) 5) f) (re r)) (snd iw)) k in
  Regs t (ra r) (RotateLeft32 (rb r) 30) (rc r) (rd r).

(** [blockGeneric] on one chunk. *)
Definition block (h : regs) (p : list byte) : regs :=
  let w := schedule 80 (words p) in
  let r := fold_left round (combine (seq 0 80) w) h in
  Regs (add32 (ra h) (ra r)) (add32 (rb h) (rb r)) (add32 (rc h) (rc r))
       (add32 (rd h) (rd r)) (add32 (re h) (re r)).

(** [blockGeneric] on [n] consecutive chunks of [p]. *)
Fixpoint blocks (n : nat) (h : regs) (p : list byte) : regs :=
  match n with
  | O => h
  | S n' => blocks n' (block h (take chunk p)) (drop chunk p)
  end.

(** [byteorder.BEPutUint64] and [byteorder.BEPutUint32]. *)
Definition BEPutUint32 (v : Z) : list byte :=
  [byte_of_Z (Z.shiftr v 24); byte_of_Z (Z.shiftr v 16);
   byte_of_Z (Z.shiftr v 8); byte_of_Z v].

Definition BEPutUint64 (v : Z) : list byte :=
  BEPutUint32 (Z.shiftr v 32) ++ BEPutUint32 v.

(** The padding written by [checkSum]: a 1 bit, 0 bits until 56 bytes
    mod 64, then the length in bits. *)
Definition padding (len : nat) : list byte :=
  let t := if (len mod 64 <? 56)%nat then (56 - len mod 64)%nat
           else (64 + 56 - len mod 64)%nat in
  (x80 :: replicate (t - 1) x00)
    ++ BEPutUint64 ((Z.of_nat len * 8) mod 2 ^ 64).

(** [sha1.Sum(data)]: the SHA-1 checksum of the data, a [[20]byte]. *)
Definition Sum (data : list byte) : list byte :=
  let p := data ++ padding (length data) in
  let h := blocks (length p / chunk) (Regs init0 init1 init2 init3 init4) p in
  BEPutUint32 (ra h) ++ BEPutUint32 (rb h) ++ BEPutUint32 (rc h)
    ++ BEPutUint32 (rd h) ++ BEPutUint32 (re h).

End sha1.

(** ** encoding/hex *)

Module hex.

Definition hextable : string := "0123456789abcdef".

(** [hex.EncodeToString]: for every byte [v], [hextable[v>>4]] then
    [hextable[v&0x0f]]. *)
Fixpoint EncodeToString (src : list byte) : string :=
  match src with
  | [] => EmptyString
  | v :: r =>
      String (string_at hextable (N.shiftr (Byte.to_N v) 4))
        (String (string_at hextable (N.land (Byte.to_N v) 0x0f))
           (EncodeToString r))
  end.

(** [fromHexChar]: the value of a hexadecimal digit, either case. *)
Definition fromHexChar (c : ascii) : option N :=
  let n := N_of_ascii c in
  if ((48 <=? n) && (n <=? 57))%N then Some (n - 48)%N
  else if ((97 <=? n) && (n <=? 102))%N then Some (n - 97 + 10)%N
  else if ((65 <=? n) && (n <=? 70))%N then Some (n - 65 + 10)%N
  else None.

(** [hex.DecodeString]: [(a << 4) | b] for every pair of digits; [None]
    stands for its errors ([InvalidByteError], [ErrLength]). *)
Fixpoint DecodeString (s : string) : option (list byte) :=
  match s with
  | EmptyString => Some []
  | String p (String q r) =>
      match fromHexChar p, fromHexChar q, DecodeString r with
      | Some a, Some b, Some bs =>
          Some (byte_of_Z (Z.of_N (N.lor (N.shiftl a 4) b)) :: bs)
      | _, _, _ => None
      end
  | String _ EmptyString => None
  end.

End hex.

(** A byte sequence written in hexadecimal. *)
Definition from_hex (s : string) : list byte := default [] (hex.DecodeString s).


(** ** encoding/base64 *)

Module base64.

Definition encodeStd : string :=
  "ABCDEFGHIJKLMNOPQRSTUVWXYZabcdefghijklmnopqrstuvwxyz0123456789+/".

Definition StdPadding : ascii := "="%char.

(** [enc.encode[v]] *)
Definition encode (v : Z) : ascii := string_at encodeStd (Z.to_N v).

(** [enc.decodeMap[c]], [None] for a byte outside the alphabet. *)
Definition decodeMap (c : ascii) : option Z :=
  option_map Z.of_N (string_index c encodeStd 0%N).

(** [base64.StdEncoding.EncodeToString]: every three bytes give
    [val := uint(src[si+0])<<16 | uint(src[si+1])<<8 | uint(src[si+2])]
    and the four characters [encode[val>>18&0x3F]], [encode[val>>12&0x3F]],
    [encode[val>>6&0x3F]], [encode[val&0x3F]]; a remainder of one or two
    bytes is padded with [=]. *)
Fixpoint EncodeToString (src : list byte) : string :=
  match src with
  | b0 :: b1 :: b2 :: r =>
      let val := Z.lor (Z.lor (Z.shiftl (byte_to_Z b0) 16)
                              (Z.shiftl (byte_to_Z b1) 8)) (byte_to_Z b2) in
      String (encode (Z.land (Z.shiftr val 18) 0x3F))
        (String (encode (Z.land (Z.shiftr val 12) 0x3F))
           (String (encode (Z.land (Z.shiftr val 6) 0x3F))
              (String (encode (Z.land val 0x3F)) (EncodeToString r))))
  | [b0; b1] =>
      let val := Z.lor (Z.shiftl (byte_to_Z b0) 16) (Z.shiftl (byte_to_Z b1) 8) in
      String (encode (Z.land (Z.shiftr val 18) 0x3F))
        (String (encode (Z.land (Z.shiftr val 12) 0x3F))
           (String (encode (Z.land (Z.shiftr val 6) 0x3F))
              (String StdPadding EmptyString)))
  | [b0] =>
      let val := Z.shiftl (byte_to_Z b0) 16 in
      String (encode (Z.land (Z.shiftr val 18) 0x3F))
        (String (encode (Z.land (Z.shiftr val 12) 0x3F))
           (String StdPadding (String StdPadding EmptyString)))
  | [] => EmptyString
  end.

(** The value [decodeQuantum] assembles from four six-bit digits:
    [uint(dbuf[0])<<18 | uint(dbuf[1])<<12 | uint(dbuf[2])<<6 | uint(dbuf[3])]. *)
Definition quantum (v0 v1 v2 v3 : Z) : Z :=
  Z.lor (Z.lor (Z.lor (Z.shiftl v0 18) (Z.shiftl v1 12)) (Z.shiftl v2 6)) v3.

(** [base64.StdEncoding.DecodeString] on input without line breaks: four
    characters at a time, padding only at the end of the last group;
    [None] stands for [CorruptInputError]. *)
Fixpoint DecodeString (s : string) : option (list byte) :=
  match s with
  | EmptyString => Some []
  | String c0 (String c1 (String c2 (String c3 r))) =>
      match decodeMap c0, decodeMap c1 with
      | Some v0, Some v1 =>
          if Ascii.eqb c2 StdPadding then
            if Ascii.eqb c3 StdPadding && string_is_empty r
            then Some [byte_of_Z (Z.shiftr (quantum v0 v1 0 0) 16)]
            else None
          else
            match decodeMap c2 with
            | None => None
            | Some v2 =>
                if Ascii.eqb c3 StdPadding then
                  if string_is_empty r
                  then Some [byte_of_Z (Z.shiftr (quantum v0 v1 v2 0) 16);
                             byte_of_Z (Z.shiftr (quantum v0 v1 v2 0) 8)]
                  else None
                else
                  match decodeMap c3, DecodeString r with
                  | Some v3, Some bs =>
                      Some (byte_of_Z (Z.shiftr (quantum v0 v1 v2 v3) 16)
                            :: byte_of_Z (Z.shiftr (quantum v0 v1 v2 v3) 8)
                            :: byte_of_Z (quantum v0 v1 v2 v3) :: bs)
                  | _, _ => None
                  end
            end
      | _, _ => None
      end
  | _ => None
  end.

End base64.

(** ** errors, io, fmt, bytes *)

(** Go's [error] values: the ones made by [errors.New], and the two an
    [io.ReadFull] on the random source can return. *)
Inductive error : Type :=
| errorString (s : string)
| EOF
| ErrUnexpectedEOF.

Module errors.
Definition New (text : string) : error := errorString text.
End errors.

Module fmt.
(** [fmt.Sprintf(format, a)] for a format whose only verb is one [%s]. *)
Fixpoint Sprintf (format : string) (a : string) : string :=
  match format with
  | EmptyString => EmptyString
  | String c rest =>
      match rest with
      | String c' rest' =>
          if Ascii.eqb c "%"%char && Ascii.eqb c' "s"%char
          then String.append a rest'
          else String c (Sprintf rest a)
      | EmptyString => String c EmptyString
      end
  end.
End fmt.

Module bytes.
(** [bytes.Equal(a, b)]: same length and same bytes; a nil argument is
    equivalent to an empty slice. *)
Fixpoint Equal (a b : list byte) : bool :=
  match a, b with
  | [], [] => true
  | x :: a', y :: b' => Byte.eqb x y && Equal a' b'
  | _, _ => false
  end.
End bytes.

(** ** crypto/rand *)

Module rand.

(** The state of [rand.Reader]: the bytes it can still deliver.  A source
    that is unavailable has none. *)
Definition Reader : Type := list byte.

(** [rand.Read(b)] is [io.ReadFull(rand.Reader, b)]: it fills [b]
    entirely, or fails with [io.EOF] when nothing could be read and with
    [io.ErrUnexpectedEOF] after a short read.  Returns the new contents
    of [b], the error and the state of the source. *)
Definition Read (b : list byte) (r : Reader) : list byte * option error * Reader :=
  if (length b <=? length r)%nat
  then (take (length b) r, None, drop (length b) r)
  else (r ++ drop (length r) b,
        Some (match r with [] => EOF | _ :: _ => ErrUnexpectedEOF end),
        []).

End rand.

(** Go's [(value, error)] results of the constructors: [(d, nil)] is [Ok d]
    and [(nil, err)] is [Err err]. *)
Inductive result (A : Type) : Type :=
| Ok (a : A)
| Err (e : error).
Arguments Ok {A} a.
Arguments Err {A} e.

(** ** Package ssha1, slices by their contents *)

Module ssha1.

Definition DefaultNumSaltBytes : Z := 20.
Definition MinSaltBytes : Z := 1.
Definition BlockSize : nat := sha1.BlockSize.
Definition outputFmt : string := "{SSHA}%s".
Definition errMsgSaltTooShort : string :=
  "invalid salt length, must be at least 1 byte".
Definition errMsgSliceTooShortSha1 : string := "slice too short for a SHA-1 hash".
Definition errMsgSliceTooShortSsha1 : string := "slice too short to be a SSHA1 hash".

Record digest : Type := Digest { internal : list byte; salt : list byte }.

(** [new(digest)]: both slices nil. *)
Definition new_digest : digest := Digest [] [].

(** [len(s)] and [make([]byte, n)] *)
Definition len (s : list byte) : Z := Z.of_nat (length s).
Definition make (n : Z) : list byte := replicate (Z.to_nat n) x00.

(** [func (d *digest) Size() int] *)
Definition digest_Size (d : digest) : Z := Z.of_nat sha1.Size + len (salt d).

(** [func (d *digest) BlockSize() int] *)
Definition digest_BlockSize (d : digest) : Z := Z.of_nat BlockSize.

(** [func (d *digest) Reset()] *)
Definition digest_Reset (d : digest) : digest :=
  Digest (make 0) (salt d).

(** [func (d *digest) Write(p []byte) (int, error)]: the digest after the
    call, and the call's two results. *)
Definition digest_Write (d : digest) (p : list byte) : digest * (Z * option error) :=
  (Digest (internal d ++ p) (salt d), (len p, None)).

(** [func (d *digest) Sum(in []byte) []byte] *)
Definition digest_Sum (d : digest) (in_ : list byte) : list byte :=
  let tmp := internal d ++ salt d in
  let sum := sha1.Sum tmp in
  let tmp := sum ++ salt d in
  in_ ++ tmp.

(** [func (d *digest) String() string] *)
Definition digest_String (d : digest) : string :=
  let sum := digest_Sum d [] in
  fmt.Sprintf outputFmt (base64.EncodeToString sum).

(** [func (d *digest) HexString() string] *)
Definition digest_HexString (d : digest) : string :=
  let sum := digest_Sum d [] in
  hex.EncodeToString sum.

(** [func New() (crypto.Hash, error)] *)
Definition New (r : rand.Reader) : result digest * rand.Reader :=
  let d := new_digest in
  let d := digest_Reset d in
  let '(s, err, r) := rand.Read (make DefaultNumSaltBytes) r in
  let d := Digest (internal d) s in
  match err with
  | Some e => (Err e, r)
  | None => (Ok d, r)
  end.

(** [func NewWithSalt(salt []byte) (crypto.Hash, error)] *)
Definition NewWithSalt (salt : list byte) : result digest :=
  if len salt <? MinSaltBytes then Err (errors.New errMsgSaltTooShort)
  else
    let d := new_digest in
    let d := digest_Reset d in
    let d := Digest (internal d) salt in
    Ok d.

(** [func NewForSaltSize(numSaltBytes int) (crypto.Hash, error)] *)
Definition NewForSaltSize (numSaltBytes : Z) (r : rand.Reader)
  : result digest * rand.Reader :=
  if numSaltBytes <? MinSaltBytes then (Err (errors.New errMsgSaltTooShort), r)
  else
    let d := new_digest in
    let d := digest_Reset d in
    let '(s, err, r) := rand.Read (make numSaltBytes) r in
    let d := Digest (internal d) s in
    match err with
    | Some e => (Err e, r)
    | None => (Ok d, r)
    end.

(** [func Sum(data, salt []byte) ([]byte, error)].  The salt is [None]
    for a nil slice ([salt == nil]) and [Some s] otherwise; the result is
    the pair the function returns, a nil slice being empty. *)
Definition Sum (data : list byte) (salt : option (list byte)) (r : rand.Reader)
  : (list byte * option error) * rand.Reader :=
  match salt with
  | None =>
      match New r with
      | (Err err, r) => (([], Some err), r)
      | (Ok d0, r) =>
          let d := fst (digest_Write d0 data) in
          ((digest_Sum d [], None), r)
      end
  | Some salt =>
      match NewWithSalt salt with
      | Err err => (([], Some err), r)
      | Ok d0 =>
          let d := fst (digest_Write d0 data) in
          ((digest_Sum d [], None), r)
      end
  end.

(** [func Validate(ssha1Hash, sample []byte) (bool, error)] *)
Definition Validate (ssha1Hash sample : list byte) : bool * option error :=
  let length := len ssha1Hash in
  if length <? Z.of_nat sha1.Size
  then (false, Some (errors.New errMsgSliceTooShortSha1))
  else
    let saltSize := length - Z.of_nat sha1.Size in
    if saltSize =? 0
    then (false, Some (errors.New errMsgSliceTooShortSsha1))
    else
      let salt := drop (Z.to_nat (length - saltSize)) ssha1Hash in
      match NewWithSalt salt with
      | Err err => (false, Some err)
      | Ok d =>
          let d := fst (digest_Write d sample) in
          let result := digest_Sum d [] in
          (bytes.Equal ssha1Hash result, None)
      end.

End ssha1.

(** ** Package ssha1, slices as headers over backing arrays *)

Module mem.

(** A non-nil slice value: the backing array it points into, the offset
    of its first element there, its length and its capacity. *)
Record header : Type :=
  Header { array : nat; offset : nat; length_ : nat; capacity : nat }.

(** A slice value; [None] is the nil slice. *)
Definition slice : Type := option header.

(** The backing arrays, by address. *)
Abbreviation store := (list (list byte)).

Definition len (s : slice) : nat :=
  match s with None => 0%nat | Some h => length_ h end.

Definition cap (s : slice) : nat :=
  match s with None => 0%nat | Some h => capacity h end.

(** The elements [s[0], ..., s[len(s)-1]]. *)
Definition contents (m : store) (s : slice) : list byte :=
  match s with
  | None => []
  | Some h => take (length_ h) (drop (offset h) (default [] (m !! array h)))
  end.

(** [copy(dst[i:], src)] on an array that has room for [src] at [i]. *)
Definition copy (dst : list byte) (i : nat) (src : list byte) : list byte :=
  take i dst ++ src ++ drop (i + length src) dst.

(** A new array holding [a], and the slice [a[:]] of it. *)
Definition alloc (a : list byte) (m : store) : slice * store :=
  (Some (Header (length m) 0 (length a) (length a)), m ++ [a]).

(** [make([]byte, n)] *)
Definition make (n : nat) (m : store) : slice * store :=
  alloc (replicate n x00) m.

(** [s[i:]] for [i <= len(s)] *)
Definition slice_from (s : slice) (i : nat) : slice :=
  match s with
  | None => None
  | Some h => Some (Header (array h) (offset h + i) (length_ h - i) (capacity h - i))
  end.

(** The builtin [copy(dst, src)], by which a caller overwrites a slice it
    holds: the first [min(len(dst), len(src))] elements of [src] go to the
    front of [dst]; returns their number. *)
Definition builtin_copy (dst : slice) (src : list byte) (m : store) : nat * store :=
  let n := Nat.min (len dst) (length src) in
  match dst with
  | None => (n, m)
  | Some h => (n, alter (fun a => copy a (offset h) (take n src)) (array h) m)
  end.

Section with_growslice.

(** The capacity [runtime.growslice] picks for a slice of capacity
    [old] that must hold [needed] elements; [append] below never takes
    less than [needed]. *)
Variable growslice : nat -> nat -> nat.

(** [append(s, t...)]: when the capacity of [s] is large enough the
    elements of [t] are written behind [s] in its own backing array;
    otherwise a new, sufficiently large array receives the elements of
    both.  Appending nothing to nil gives nil. *)
Definition append (s t : slice) (m : store) : slice * store :=
  let xs := contents m t in
  let n := (len s + length xs)%nat in
  if (n <=? cap s)%nat then
    match s with
    | None => (None, m)
    | Some h =>
        (Some (Header (array h) (offset h) n (capacity h)),
         alter (fun a => copy a (offset h + length_ h) xs) (array h) m)
    end
  else
    let c := Nat.max n (growslice (cap s) n) in
    (Some (Header (length m) 0 n c),
     m ++ [(contents m s ++ xs) ++ replicate (c - n) x00]).

Record digest : Type := Digest { internal : slice; salt : slice }.

(** [new(digest)] *)
Definition new_digest : digest := Digest None None.

(** [func (d *digest) Size() int] *)
Definition digest_Size (d : digest) : Z :=
  Z.of_nat sha1.Size + Z.of_nat (len (salt d)).

(** [func (d *digest) Reset()] *)
Definition digest_Reset (d : digest) (m : store) : digest * store :=
  let '(s, m) := make 0 m in
  (Digest s (salt d), m).

(** [func (d *digest) Write(p []byte) (int, error)] *)
Definition digest_Write (d : digest) (p : slice) (m : store)
  : digest * (Z * option error) * store :=
  let '(s, m) := append (internal d) p m in
  (Digest s (salt d), (Z.of_nat (len p), None), m).

(** [func (d *digest) Sum(in []byte) []byte]; the array [sum] returned
    by [sha1.Sum] is a variable of the function, sliced by [sum[:]]. *)
Definition digest_Sum (d : digest) (in_ : slice) (m : store) : slice * store :=
  let '(tmp, m) := append (internal d) (salt d) m in
  let '(sum, m) := alloc (sha1.Sum (contents m tmp)) m in
  let '(tmp, m) := append sum (salt d) m in
  append in_ tmp m.

(** [func (d *digest) String() string] *)
Definition digest_String (d : digest) (m : store) : string * store :=
  let '(sum, m) := digest_Sum d None m in
  (fmt.Sprintf ssha1.outputFmt (base64.EncodeToString (contents m sum)), m).

(** [func (d *digest) HexString() string] *)
Definition digest_HexString (d : digest) (m : store) : string * store :=
  let '(sum, m) := digest_Sum d None m in
  (hex.EncodeToString (contents m sum), m).

(** [rand.Read(b)]: the bytes are written into the array of [b]. *)
Definition rand_Read (b : slice) (r : rand.Reader) (m : store)
  : option error * rand.Reader * store :=
  let '(bs, err, r) := rand.Read (contents m b) r in
  match b with
  | None => (err, r, m)
  | Some h => (err, r, alter (fun a => copy a (offset h) bs) (array h) m)
  end.

(** [func New() (crypto.Hash, error)] *)
Definition New (r : rand.Reader) (m : store) : result digest * rand.Reader * store :=
  let d := new_digest in
  let '(d, m) := digest_Reset d m in
  let '(s, m) := make (Z.to_nat ssha1.DefaultNumSaltBytes) m in
  let d := Digest (internal d) s in
  let '(err, r, m) := rand_Read (salt d) r m in
  match err with
  | Some e => (Err e, r, m)
  | None => (Ok d, r, m)
  end.

(** [func NewWithSalt(salt []byte) (crypto.Hash, error)] *)
Definition NewWithSalt (salt : slice) (m : store) : result digest * store :=
  if Z.of_nat (len salt) <? ssha1.MinSaltBytes
  then (Err (errors.New ssha1.errMsgSaltTooShort), m)
  else
    let d := new_digest in
    let '(d, m) := digest_Reset d m in
    let d := Digest (internal d) salt in
    (Ok d, m).

(** [func NewForSaltSize(numSaltBytes int) (crypto.Hash, error)] *)
Definition NewForSaltSize (numSaltBytes : Z) (r : rand.Reader) (m : store)
  : result digest * rand.Reader * store :=
  if numSaltBytes <? ssha1.MinSaltBytes
  then (Err (errors.New ssha1.errMsgSaltTooShort), r, m)
  else
    let d := new_digest in
    let '(d, m) := digest_Reset d m in
    let '(s, m) := make (Z.to_nat numSaltBytes) m in
    let d := Digest (internal d) s in
    let '(err, r, m) := rand_Read (salt d) r m in
    match err with
    | Some e => (Err e, r, m)
    | None => (Ok d, r, m)
    end.

(** [func Sum(data, salt []byte) ([]byte, error)] *)
Definition Sum (data salt : slice) (r : rand.Reader) (m : store)
  : (slice * option error) * rand.Reader * store :=
  match salt with
  | None =>
      match New r m with
      | (Err err, r, m) => ((None, Some err), r, m)
      | (Ok d0, r, m) =>
          let '(d, _, m) := digest_Write d0 data m in
          let '(s, m) := digest_Sum d None m in
          ((s, None), r, m)
      end
  | Some _ =>
      match NewWithSalt salt m with
      | (Err err, m) => ((None, Some err), r, m)
      | (Ok d0, m) =>
          let '(d, _, m) := digest_Write d0 data m in
          let '(s, m) := digest_Sum d None m in
          ((s, None), r, m)
      end
  end.

(** [func Validate(ssha1Hash, sample []byte) (bool, error)] *)
Definition Validate (ssha1Hash sample : slice) (m : store)
  : (bool * option error) * store :=
  let length := Z.of_nat (len ssha1Hash) in
  if length <? Z.of_nat sha1.Size
  then ((false, Some (errors.New ssha1.errMsgSliceTooShortSha1)), m)
  else
    let saltSize := length - Z.of_nat sha1.Size in
    if saltSize =? 0
    then ((false, Some (errors.New ssha1.errMsgSliceTooShortSsha1)), m)
    else
      let salt := slice_from ssha1Hash (Z.to_nat (length - saltSize)) in
      match NewWithSalt salt m with
      | (Err err, m) => ((false, Some err), m)
      | (Ok d, m) =>
          let '(d, _, m) := digest_Write d sample m in
          let '(result, m) := digest_Sum d None m in
          ((bytes.Equal (contents m ssha1Hash) (contents m result), None), m)
      end.

(** The read operations of a digest, [Sum] with the slice [in] it is
    given, and what a caller sees of their results. *)
Inductive read_op : Type := OpSum (in_ : slice) | OpHexString | OpString.

Inductive observation : Type :=
| ObsBytes (b : list byte)
| ObsString (s : string).

Definition run_read (op : read_op) (d : digest) (m : store) : observation * store :=
  match op with
  | OpSum in_ => let '(s, m) := digest_Sum d in_ m in (ObsBytes (contents m s), m)
  | OpHexString => let '(s, m) := digest_HexString d m in (ObsString s, m)
  | OpString => let '(s, m) := digest_String d m in (ObsString s, m)
  end.

Fixpoint run_reads (ops : list read_op) (d : digest) (m : store)
  : list observation * store :=
  match ops with
  | [] => ([], m)
  | op :: ops =>
      let '(o, m) := run_read op d m in
      let '(os, m) := run_reads ops d m in
      (o :: os, m)
  end.

End with_growslice.

(** A slice is valid in a store when its array exists and holds its
    capacity. *)
Definition valid (m : store) (s : slice) : Prop :=
  match s with
  | None => True
  | Some h =>
      exists a, m !! array h = Some a
                /\ (offset h + capacity h <= length a)%nat
                /\ (length_ h <= capacity h)%nat
  end.

(** Two slices in different arrays. *)
Definition separate (s t : slice) : Prop :=
  match s, t with
  | Some h, Some k => array h <> array k
  | _, _ => True
  end.

(** The invariant of a digest: the accumulated bytes live in an array of
    the digest's own, apart from the salt's. *)
Definition wf (m : store) (d : digest) : Prop :=
  valid m (internal d) /\ valid m (salt d) /\ separate (internal d) (salt d).

(** The slice a read operation is given is a valid one, as every slice
    of a program is. *)
Definition read_valid (m : store) (op : read_op) : Prop :=
  match op with
  | OpSum in_ => valid m in_
  | OpHexString | OpString => True
  end.

(** The slice a read operation is given is valid and shares no array with
    the digest; the nil slice never does. *)
Definition apart (m : store) (d : digest) (op : read_op) : Prop :=
  match op with
  | OpSum in_ => valid m in_ /\ separate in_ (internal d) /\ separate in_ (salt d)
  | OpHexString | OpString => True
  end.

(** The digests a program can hold: made by a constructor, then written
    to, reset and read any number of times, [Sum] being given any slice
    the program has. *)
Inductive reachable (growslice : nat -> nat -> nat) : store -> digest -> Prop :=
| reach_New r m d r' m' :
    New r m = (Ok d, r', m') -> reachable growslice m' d
| reach_NewWithSalt salt m d m' :
    valid m salt -> NewWithSalt salt m = (Ok d, m') -> reachable growslice m' d
| reach_NewForSaltSize n r m d r' m' :
    NewForSaltSize n r m = (Ok d, r', m') -> reachable growslice m' d
| reach_Write m d p d' res m' :
    reachable growslice m d -> digest_Write growslice d p m = (d', res, m') ->
    reachable growslice m' d'
| reach_Reset m d d' m' :
    reachable growslice m d -> digest_Reset d m = (d', m') ->
    reachable growslice m' d'
| reach_read m d op o m' :
    reachable growslice m d -> read_valid m op ->
    run_read growslice op d m = (o, m') ->
    reachable growslice m' d.

(** Arrays are never removed or resized: a store only grows. *)
Definition extends (m m' : store) : Prop :=
  forall i a, m !! i = Some a -> exists a', m' !! i = Some a' /\ length a' = length a.

(** The digest of module [ssha1] that a digest in a store stands for. *)
Definition abs (m : store) (d : digest) : ssha1.digest :=
  ssha1.Digest (contents m (internal d)) (contents m (salt d)).

(** What the three read operations return on a digest of module [ssha1],
    [Sum] being given the elements its slice has in the store. *)
Definition read_pure (m : store) (op : read_op) (d : ssha1.digest) : observation :=
  match op with
  | OpSum in_ => ObsBytes (ssha1.digest_Sum d (contents m in_))
  | OpHexString => ObsString (ssha1.digest_HexString d)
  | OpString => ObsString (ssha1.digest_String d)
  end.

(** A store and a digest in it: the caller holds the salt "XY" and the
    data "abc" in arrays 0 and 1, calls [NewWithSalt] on the first and
    [Write] on the second, and [Write] gets an array of eight bytes, so
    that the accumulated slice has five bytes of capacity left. *)
Definition example_growslice (old needed : nat) : nat := (2 * old + 8)%nat.

Definition example_state : digest * store :=
  let m := [bytes_of_string "XY"; bytes_of_string "abc"] in
  match NewWithSalt (Some (Header 0 0 2 2)) m with
  | (Ok d, m) =>
      let '(d, _, m) := digest_Write example_growslice d (Some (Header 1 0 3 3)) m in
      (d, m)
  | (Err _, m) => (new_digest, m)
  end.

Definition example_digest : digest := fst example_state.
Definition example_store : store := snd example_state.

End mem.

(** ** Two messages with the same SHA-1 checksum

    The first 320 bytes of the two PDF files of the SHAttered collision
    (Stevens, Bursztein, Karpman, Albertini and Markov, 2017): a common
    prefix of 192 bytes, then 128 bytes in which the files differ. *)

Module shattered.

Definition prefix : list byte := from_hex
  ("255044462d312e330a25e2e3cfd30a0a0a312030206f626a0a3c3c2f57696474"
   ++ "682032203020522f4865696768742033203020522f547970652034203020522f"
   ++ "537562747970652035203020522f46696c7465722036203020522f436f6c6f72"
   ++ "53706163652037203020522f4c656e6774682038203020522f42697473506572"
   ++ "436f6d706f6e656e7420383e3e0a73747265616d0affd8fffe00245348412d31"
   ++ "20697320646561642121212121852fec092339759c39b1a1c63c4c97e1fffe01")%string.

Definition blocks_1 : list byte := from_hex
  ("7346dc9166b67e118f029ab621b2560ff9ca67cca8c7f85ba84c79030c2b3de2"
   ++ "18f86db3a90901d5df45c14f26fedfb3dc38e96ac22fe7bd728f0e45bce046d2"
   ++ "3c570feb141398bb552ef5a0a82be331fea48037b8b5d71f0e332edf93ac3500"
   ++ "eb4ddc0decc1a864790c782c76215660dd309791d06bd0af3f98cda4bc4629b1")%string.

Definition blocks_2 : list byte := from_hex
  ("7f46dc93a6b67e013b029aaa1db2560b45ca67d688c7f84b8c4c791fe02b3df6"
   ++ "14f86db1690901c56b45c1530afedfb76038e972722fe7ad728f0e4904e046c2"
   ++ "30570fe9d41398abe12ef5bc942be33542a4802d98b5d70f2a332ec37fac3514"
   ++ "e74ddc0f2cc1a874cd0c78305a21566461309789606bd0bf3f98cda8044629a1")%string.

Definition message_1 : list byte := prefix ++ blocks_1.
Definition message_2 : list byte := prefix ++ blocks_2.

End shattered.

(** ** The cases of [ssha1_test.go] *)

Module testdata.

Definition sum_plaintext_1 : list byte :=
  bytes_of_string "supercalifragilisticexpialidocious".
Definition sum_salt_1 : list byte := bytes_of_string "n4pggXWL".
Definition sum_expected_1 : string :=
  "8eadde532169b6908034886be119c9f0ca61801e6e3470676758574c".

Definition sum_plaintext_2 : list byte := bytes_of_string "abcdefghijklmnopqrstuvwxyz".
Definition sum_salt_2 : list byte := bytes_of_string "K218iReB".
Definition sum_expected_2 : string :=
  "4ced2536edce6706cccf0c14a10a939022f6b0614b32313869526542".

(** salt: "abcdefg" *)
Definition validate_hash_1 : list byte :=
  from_hex "8417680c09644df743d7cea1366fbe13a31b2d5e61626364656667".
Definition validate_sample_1 : list byte := bytes_of_string "1234567890".
Definition validate_sample_2 : list byte := bytes_of_string "123456789".

(** salt: "x5yunfC]3rrjw*@VeBxNeW*oRp-PM>s*" *)
Definition validate_hash_3 : list byte :=
  from_hex ("f14713de1964843beae542b4f13024398549ac7d783579756e66435d3372726a"
            ++ "772a40566542784e65572a6f52702d504d3e732a")%string.
Definition validate_sample_3 : list byte :=
  bytes_of_string ("Lorem ipsum dolor sit amet, consectetur adipiscing elit, "
                   ++ "sed do eiusmod tempor incididunt ut labore et dolore "
                   ++ "magna aliqua.")%string.

(** salt: "X" *)
Definition validate_hash_4 : list byte :=
  from_hex "691beaac130a0be25dc517de4e6391334d3d0f3758".
Definition validate_sample_4 : list byte :=
  bytes_of_string "protean-pith-anodyne-accolade-snare".

(** too short to be at least a SHA-1 hash *)
Definition validate_hash_5 : list byte := from_hex "520d41b29f891bbaccf31d".

(** long enough to be at least a SHA-1 hash, but lacks at least 1 salt byte *)
Definition validate_hash_6 : list byte :=
  from_hex "9ab50f27d4201db9b28483ba83c48ebafbb2aa17".

Definition hexstring_salt : list byte := bytes_of_string "ajE94aZM".
Definition hexstring_plaintext : list byte :=
  bytes_of_string "When life gives you lemons, make lemonade.".
Definition hexstring_expected : string :=
  "294ac58b8b662e8f604fcf6ea4ca01105d580083616a453934615a4d".

Definition string_salt : list byte := bytes_of_string "R*w.5Vmo".
Definition string_plaintext : list byte :=
  bytes_of_string "You have to be odd to be number one.".
Definition string_expected : string :=
  "{SSHA}h+WWKpgLY/OQorn+uHAi7Gsr9LZSKncuNVZtbw==".

End testdata.

(** ** Callers' stores *)

Module memdata.

(** A caller holding a combined digest and a sample of [ssha1_test.go] in
    arrays 0 and 1. *)
Definition validate_store : mem.store :=
  [testdata.validate_hash_1; testdata.validate_sample_1].
Definition validate_hash : mem.slice := Some (mem.Header 0 0 27 27).
Definition validate_sample : mem.slice := Some (mem.Header 1 0 10 10).

(** A caller holding a plaintext and a salt of [ssha1_test.go] in arrays 0
    and 1. *)
Definition sum_store : mem.store := [testdata.sum_plaintext_2; testdata.sum_salt_2].
Definition sum_data : mem.slice := Some (mem.Header 0 0 26 26).
Definition sum_salt : mem.slice := Some (mem.Header 1 0 8 8).

(** A caller that keeps salt and result in one buffer:
    [buf := make([]byte, 32); copy(buf, "XY")], the salt is [buf[:2]] and
    the slice given to [Sum] is [buf[:0]].  [alias_digest] and
    [alias_store1] are what [NewWithSalt(buf[:2])] returns. *)
Definition alias_store : mem.store := [bytes_of_string "XY" ++ replicate 30 x00].
Definition alias_salt : mem.slice := Some (mem.Header 0 0 2 32).
Definition alias_in : mem.slice := Some (mem.Header 0 0 0 32).
Definition alias_digest : mem.digest :=
  mem.Digest (Some (mem.Header 1 0 0 0)) alias_salt.
Definition alias_store1 : mem.store := alias_store ++ [[]].

End memdata.

(** ** Checks on the tables of the encoders *)

(** What has to hold of the two digits of a byte for [hex.DecodeString] to
    undo [hex.EncodeToString]. *)
Definition hex_pair_ok (v : byte) : bool :=
  let hi := N.shiftr (Byte.to_N v) 4 in
  let lo := N.land (Byte.to_N v) 0x0f in
  match hex.fromHexChar (string_at hex.hextable hi),
        hex.fromHexChar (string_at hex.hextable lo) with
  | Some a, Some b =>
      N.eqb a hi && N.eqb b lo
      && Byte.eqb (byte_of_Z (Z.of_N (N.lor (N.shiftl a 4) b))) v
      && existsb (Ascii.eqb (string_at hex.hextable hi))
                 (list_ascii_of_string hex.hextable)
      && existsb (Ascii.eqb (string_at hex.hextable lo))
                 (list_ascii_of_string hex.hextable)
  | _, _ => false
  end.

(** What has to hold of a six-bit digit for [base64.DecodeString] to undo
    [base64.EncodeToString]. *)
Definition base64_digit_ok (n : nat) : bool :=
  let v := Z.of_nat n in
  match base64.decodeMap (base64.encode v) with
  | Some m =>
      Z.eqb m v
      && negb (Ascii.eqb (base64.encode v) base64.StdPadding)
      && existsb (Ascii.eqb (base64.encode v)) (list_ascii_of_string base64.encodeStd)
  | None => false
  end.

(** * Properties *)

(** ** Test vectors of the library models *)

Example sha1_abc :
  hex.EncodeToString (sha1.Sum (bytes_of_string "abc"))
  = "a9993e364706816aba3e25717850c26c9cd0d89d"%string.
Proof. vm_compute. reflexivity. Qed.

Example sha1_empty :
  hex.EncodeToString (sha1.Sum [])
  = "da39a3ee5e6b4b0d3255bfef95601890afd80709"%string.
Proof. vm_compute. reflexivity. Qed.

Example sha1_two_blocks :
  hex.EncodeToString (sha1.Sum (bytes_of_string
     "abcdbcdecdefdefgefghfghighijhijkijkljklmklmnlmnomnopnopq"))
  = "84983e441c3bd26ebaae4aa1f95129e5e54670f1"%string.
Proof. vm_compute. reflexivity. Qed.

(** ** The base hash and the comparison *)

Lemma sha1_Sum_length (data : list byte) : length (sha1.Sum data) = sha1.Size.
Proof. unfold sha1.Sum. cbv zeta. rewrite !length_app. reflexivity. Qed.

Lemma byte_eqb_refl (x : byte) : Byte.eqb x x = true.
Proof. apply Byte.byte_dec_lb. reflexivity. Qed.

Lemma bytes_Equal_true (a b : list byte) : bytes.Equal a b = true <-> a = b.
Proof.
  revert b; induction a as [|x a IH]; intros [|y b]; simpl; split;
    try congruence; try reflexivity.
  - intros H. apply andb_true_iff in H as [Hxy Hab].
    apply Byte.byte_dec_bl in Hxy. apply IH in Hab. congruence.
  - intros H. injection H as -> ->. rewrite byte_eqb_refl. simpl. apply IH. reflexivity.
Qed.

Lemma bytes_Equal_refl (a : list byte) : bytes.Equal a a = true.
Proof. apply bytes_Equal_true. reflexivity. Qed.

Lemma bytes_Equal_false (a b : list byte) : bytes.Equal a b = false <-> a <> b.
Proof.
  rewrite <- bytes_Equal_true. destruct (bytes.Equal a b); split; congruence.
Qed.

(** ** Constructors *)

Lemma NewWithSalt_ok (s : list byte) :
  (1 <= length s)%nat -> ssha1.NewWithSalt s = Ok (ssha1.Digest [] s).
Proof.
  intros H. unfold ssha1.NewWithSalt, ssha1.len, ssha1.MinSaltBytes.
  destruct (Z.ltb_spec (Z.of_nat (length s)) 1) as [Hlt|_]; [lia|reflexivity].
Qed.

Lemma NewWithSalt_err (s : list byte) :
  length s = 0%nat -> ssha1.NewWithSalt s = Err (errors.New ssha1.errMsgSaltTooShort).
Proof.
  intros H. unfold ssha1.NewWithSalt, ssha1.len. rewrite H. reflexivity.
Qed.

Lemma digest_Sum_eq (d : ssha1.digest) (in_ : list byte) :
  ssha1.digest_Sum d in_
  = in_ ++ sha1.Sum (ssha1.internal d ++ ssha1.salt d) ++ ssha1.salt d.
Proof. reflexivity. Qed.

Lemma Sum_with_salt (p s : list byte) (r : rand.Reader) :
  (1 <= length s)%nat ->
  ssha1.Sum p (Some s) r = ((sha1.Sum (p ++ s) ++ s, None), r).
Proof.
  intros H. unfold ssha1.Sum. rewrite NewWithSalt_ok by exact H. reflexivity.
Qed.

(** ** Validate *)

(** The three outcomes of [Validate] by the length of its first argument. *)
Lemma Validate_short (c sample : list byte) :
  (length c < 20)%nat ->
  ssha1.Validate c sample = (false, Some (errors.New ssha1.errMsgSliceTooShortSha1)).
Proof.
  intros H. unfold ssha1.Validate, ssha1.len, sha1.Size.
  destruct (Z.ltb_spec (Z.of_nat (length c)) (Z.of_nat 20)) as [_|Hge]; [reflexivity|lia].
Qed.

Lemma Validate_no_salt (c sample : list byte) :
  length c = 20%nat ->
  ssha1.Validate c sample = (false, Some (errors.New ssha1.errMsgSliceTooShortSsha1)).
Proof.
  intros H. unfold ssha1.Validate, ssha1.len, sha1.Size. rewrite H. reflexivity.
Qed.

Lemma Validate_long (c sample : list byte) :
  (21 <= length c)%nat ->
  ssha1.Validate c sample
  = (bytes.Equal c (sha1.Sum (sample ++ drop 20 c) ++ drop 20 c), None).
Proof.
  intros H. unfold ssha1.Validate, ssha1.len, sha1.Size.
  destruct (Z.ltb_spec (Z.of_nat (length c)) (Z.of_nat 20)) as [Hlt|_]; [lia|].
  destruct (Z.eqb_spec (Z.of_nat (length c) - Z.of_nat 20) 0) as [Heq|_]; [lia|].
  replace (Z.to_nat (Z.of_nat (length c) - (Z.of_nat (length c) - Z.of_nat 20)))
    with 20%nat by lia.
  rewrite NewWithSalt_ok by (rewrite length_drop; lia).
  reflexivity.
Qed.

Lemma bytes_Equal_app_tail (a b s : list byte) :
  bytes.Equal (a ++ s) (b ++ s) = bytes.Equal a b.
Proof.
  destruct (bytes.Equal a b) eqn:Hab.
  - apply bytes_Equal_true in Hab. subst b. apply bytes_Equal_refl.
  - apply bytes_Equal_false. apply bytes_Equal_false in Hab.
    intros Heq. apply Hab. exact (app_inv_tail s a b Heq).
Qed.

Lemma drop_sha1_app (data s : list byte) : drop 20 (sha1.Sum data ++ s) = s.
Proof.
  rewrite drop_app_length'; [reflexivity|]. rewrite sha1_Sum_length. reflexivity.
Qed.

Lemma Validate_of_Sum (p q s : list byte) :
  (1 <= length s)%nat ->
  ssha1.Validate (sha1.Sum (p ++ s) ++ s) q
  = (bytes.Equal (sha1.Sum (p ++ s)) (sha1.Sum (q ++ s)), None).
Proof.
  intros H. rewrite Validate_long.
  - rewrite drop_sha1_app, bytes_Equal_app_tail. reflexivity.
  - rewrite length_app, sha1_Sum_length. unfold sha1.Size. lia.
Qed.

(** ** Claims about [Sum] and [Validate] *)

(** C1. Round trip: for every plaintext [p] and every salt [s] of at least
    one byte, [Sum(p, s)] returns a combined digest and no error, and
    [Validate] of that digest against [p] returns [(true, nil)]. *)
Theorem validate_sum_roundtrip (p s : list byte) (r : rand.Reader) :
  (1 <= length s)%nat ->
  exists h, fst (ssha1.Sum p (Some s) r) = (h, None)
            /\ ssha1.Validate h p = (true, None).
Proof.
  intros H. exists (sha1.Sum (p ++ s) ++ s). split.
  - rewrite Sum_with_salt by exact H. reflexivity.
  - rewrite Validate_of_Sum by exact H. rewrite bytes_Equal_refl. reflexivity.
Qed.

Lemma validate_sum_roundtrip_witness :
  (1 <= length testdata.sum_salt_1)%nat
  /\ exists h,
      fst (ssha1.Sum testdata.sum_plaintext_1 (Some testdata.sum_salt_1) []) = (h, None)
      /\ ssha1.Validate h testdata.sum_plaintext_1 = (true, None).
Proof.
  split; [simpl; lia|].
  apply (validate_sum_roundtrip testdata.sum_plaintext_1 testdata.sum_salt_1 []).
  simpl; lia.
Defined.

(** C2. Layout of the combined digest: for a digest whose accumulated bytes
    are [m] and whose salt is [s], [Sum(nil)] is [H(m ++ s) ++ s]: its first
    20 bytes are the SHA-1 checksum of [m ++ s], the rest is the salt, and
    its length is [20 + len(s)], which is also what [Size] returns. *)
Theorem digest_Sum_layout (d : ssha1.digest) :
  let m := ssha1.internal d in
  let s := ssha1.salt d in
  let out := ssha1.digest_Sum d [] in
  out = sha1.Sum (m ++ s) ++ s
  /\ take 20 out = sha1.Sum (m ++ s)
  /\ drop 20 out = s
  /\ length out = (20 + length s)%nat
  /\ ssha1.digest_Size d = Z.of_nat (length out).
Proof.
  cbv zeta. rewrite digest_Sum_eq. rewrite app_nil_l.
  split; [reflexivity|].
  split; [apply take_app_length'; rewrite sha1_Sum_length; reflexivity|].
  split; [apply drop_sha1_app|].
  split.
  - rewrite length_app, sha1_Sum_length. reflexivity.
  - unfold ssha1.digest_Size, ssha1.len.
    rewrite length_app, sha1_Sum_length. unfold sha1.Size. lia.
Qed.

Lemma too_short_errors_differ :
  errors.New ssha1.errMsgSliceTooShortSha1 <> errors.New ssha1.errMsgSliceTooShortSsha1.
Proof. intros H. cbv in H. discriminate H. Qed.

(** C3. [Validate] returns an error exactly when its first argument has at
    most 20 bytes: the too-short-for-SHA-1 error exactly below 20 bytes, the
    too-short-to-be-SSHA1 error exactly at 20 bytes, and no error from 21
    bytes on. *)
Theorem Validate_errors (c sample : list byte) :
  ((length c < 20)%nat <->
     ssha1.Validate c sample
     = (false, Some (errors.New ssha1.errMsgSliceTooShortSha1)))
  /\ (length c = 20%nat <->
        ssha1.Validate c sample
        = (false, Some (errors.New ssha1.errMsgSliceTooShortSsha1)))
  /\ ((21 <= length c)%nat <-> snd (ssha1.Validate c sample) = None)
  /\ ((length c <= 20)%nat <-> snd (ssha1.Validate c sample) <> None).
Proof.
  pose proof too_short_errors_differ as Hne.
  destruct (Nat.lt_trichotomy (length c) 20) as [Hlt|[Heq|Hgt]].
  - rewrite (Validate_short c sample Hlt). simpl.
    split; [split; [reflexivity|intros _; exact Hlt]|].
    split; [split; [lia|congruence]|].
    split; [split; [lia|congruence]|].
    split; [congruence|lia].
  - rewrite (Validate_no_salt c sample Heq). simpl.
    split; [split; [lia|congruence]|].
    split; [split; [reflexivity|intros _; exact Heq]|].
    split; [split; [lia|congruence]|].
    split; [congruence|lia].
  - rewrite (Validate_long c sample) by lia. simpl.
    split; [split; [lia|congruence]|].
    split; [split; [lia|congruence]|].
    split; [split; [reflexivity|lia]|].
    split; [lia|congruence].
Qed.

Lemma Validate_errors_witness :
  ssha1.Validate testdata.validate_hash_5 []
  = (false, Some (errors.New ssha1.errMsgSliceTooShortSha1))
  /\ ssha1.Validate testdata.validate_hash_6 []
     = (false, Some (errors.New ssha1.errMsgSliceTooShortSsha1)).
Proof.
  split.
  - apply (proj1 (Validate_errors testdata.validate_hash_5 [])).
    vm_compute. lia.
  - apply (proj1 (proj2 (Validate_errors testdata.validate_hash_6 []))).
    vm_compute. reflexivity.
Defined.

(** C4. On a combined value of at least 21 bytes, [Validate] takes the
    bytes after the first 20 as the salt, recomputes the combined digest of
    the sample under that salt as [Sum] does, and returns, with no error,
    whether the recomputed value equals the whole combined value. *)
Theorem Validate_recomputes (c sample : list byte) (r : rand.Reader) :
  (21 <= length c)%nat ->
  let salt := drop 20 c in
  let recomputed := sha1.Sum (sample ++ salt) ++ salt in
  length salt = (length c - 20)%nat
  /\ fst (ssha1.Sum sample (Some salt) r) = (recomputed, None)
  /\ ssha1.Validate c sample = (bytes.Equal c recomputed, None)
  /\ (fst (ssha1.Validate c sample) = true <-> recomputed = c).
Proof.
  intros H salt recomputed.
  assert (Hs : (1 <= length salt)%nat) by (unfold salt; rewrite length_drop; lia).
  split; [unfold salt; apply length_drop|].
  split; [rewrite Sum_with_salt by exact Hs; reflexivity|].
  rewrite (Validate_long c sample H). fold salt. fold recomputed.
  split; [reflexivity|]. simpl. rewrite bytes_Equal_true.
  split; congruence.
Qed.

Lemma Validate_recomputes_witness :
  (21 <= length testdata.validate_hash_1)%nat
  /\ length (drop 20 testdata.validate_hash_1)
     = (length testdata.validate_hash_1 - 20)%nat
  /\ fst (ssha1.Sum testdata.validate_sample_1
            (Some (drop 20 testdata.validate_hash_1)) [])
     = (sha1.Sum (testdata.validate_sample_1 ++ drop 20 testdata.validate_hash_1)
          ++ drop 20 testdata.validate_hash_1, None)
  /\ ssha1.Validate testdata.validate_hash_1 testdata.validate_sample_1
     = (bytes.Equal testdata.validate_hash_1
          (sha1.Sum (testdata.validate_sample_1 ++ drop 20 testdata.validate_hash_1)
             ++ drop 20 testdata.validate_hash_1), None)
  /\ (fst (ssha1.Validate testdata.validate_hash_1 testdata.validate_sample_1) = true
      <-> sha1.Sum (testdata.validate_sample_1 ++ drop 20 testdata.validate_hash_1)
            ++ drop 20 testdata.validate_hash_1 = testdata.validate_hash_1).
Proof.
  split; [vm_compute; lia|].
  apply (Validate_recomputes testdata.validate_hash_1 testdata.validate_sample_1 []).
  vm_compute; lia.
Defined.

(** C6, as the code has it.  [Validate] of the combined digest of [p1]
    against another sample [p2] returns no error, and its answer is whether
    the SHA-1 checksums of [p1 ++ s] and [p2 ++ s] are equal: [true] exactly
    when they are, [false] whenever they differ. *)
Theorem validate_other_sample (p1 p2 s : list byte) (r : rand.Reader) :
  (1 <= length s)%nat ->
  exists h, fst (ssha1.Sum p1 (Some s) r) = (h, None)
            /\ ssha1.Validate h p2
               = (bytes.Equal (sha1.Sum (p1 ++ s)) (sha1.Sum (p2 ++ s)), None)
            /\ (fst (ssha1.Validate h p2) = true
                <-> sha1.Sum (p1 ++ s) = sha1.Sum (p2 ++ s))
            /\ (sha1.Sum (p1 ++ s) <> sha1.Sum (p2 ++ s) ->
                ssha1.Validate h p2 = (false, None)).
Proof.
  intros H. exists (sha1.Sum (p1 ++ s) ++ s).
  split; [rewrite Sum_with_salt by exact H; reflexivity|].
  rewrite Validate_of_Sum by exact H.
  split; [reflexivity|].
  split; [apply bytes_Equal_true|].
  intros Hne. apply bytes_Equal_false in Hne. rewrite Hne. reflexivity.
Qed.

Lemma validate_other_sample_witness :
  (1 <= length (drop 20 testdata.validate_hash_1))%nat
  /\ exists h,
      fst (ssha1.Sum testdata.validate_sample_1
             (Some (drop 20 testdata.validate_hash_1)) []) = (h, None)
      /\ ssha1.Validate h testdata.validate_sample_2 = (false, None).
Proof.
  split; [vm_compute; lia|].
  destruct (validate_other_sample testdata.validate_sample_1
              testdata.validate_sample_2 (drop 20 testdata.validate_hash_1) [])
    as [h [Hsum [_ [_ Hfalse]]]]; [vm_compute; lia|].
  exists h. split; [exact Hsum|].
  apply Hfalse. vm_compute. discriminate.
Defined.

(** C6 fails as stated: the two SHAttered messages differ, and the combined
    digest of the first validates against the second under any salt, here
    the one-byte salt "X". *)
Lemma validate_other_sample_collision :
  shattered.message_1 <> shattered.message_2
  /\ (1 <= length (bytes_of_string "X"))%nat
  /\ exists h,
      fst (ssha1.Sum shattered.message_1 (Some (bytes_of_string "X")) []) = (h, None)
      /\ ssha1.Validate h shattered.message_2 = (true, None).
Proof.
  split; [vm_compute; discriminate|].
  split; [vm_compute; lia|].
  exists (sha1.Sum (shattered.message_1 ++ bytes_of_string "X") ++ bytes_of_string "X").
  split; vm_compute; reflexivity.
Qed.

(** C10. The salt [Validate] extracts has at least one byte, so
    [NewWithSalt] accepts it, and [Validate] never returns the
    invalid-salt-length error: its error is nil or one of the two length
    errors. *)
Theorem Validate_salt_accepted (c sample : list byte) :
  ((21 <= length c)%nat ->
   (1 <= length (drop 20 c))%nat
   /\ ssha1.NewWithSalt (drop 20 c) = Ok (ssha1.Digest [] (drop 20 c)))
  /\ snd (ssha1.Validate c sample) <> Some (errors.New ssha1.errMsgSaltTooShort)
  /\ (snd (ssha1.Validate c sample) = None
      \/ snd (ssha1.Validate c sample)
         = Some (errors.New ssha1.errMsgSliceTooShortSha1)
      \/ snd (ssha1.Validate c sample)
         = Some (errors.New ssha1.errMsgSliceTooShortSsha1)).
Proof.
  split.
  - intros H.
    assert (Hs : (1 <= length (drop 20 c))%nat) by (rewrite length_drop; lia).
    split; [exact Hs|apply NewWithSalt_ok; exact Hs].
  - destruct (Nat.lt_trichotomy (length c) 20) as [Hlt|[Heq|Hgt]].
    + rewrite (Validate_short c sample Hlt). simpl.
      split; [intros H; cbv in H; discriminate H|]. right; left; reflexivity.
    + rewrite (Validate_no_salt c sample Heq). simpl.
      split; [intros H; cbv in H; discriminate H|]. right; right; reflexivity.
    + rewrite (Validate_long c sample) by lia. simpl.
      split; [discriminate|]. left; reflexivity.
Qed.

Lemma Validate_salt_accepted_witness :
  (21 <= length testdata.validate_hash_4)%nat
  /\ (1 <= length (drop 20 testdata.validate_hash_4))%nat
  /\ ssha1.NewWithSalt (drop 20 testdata.validate_hash_4)
     = Ok (ssha1.Digest [] (drop 20 testdata.validate_hash_4)).
Proof.
  split; [vm_compute; lia|].
  apply (proj1 (Validate_salt_accepted testdata.validate_hash_4
                  testdata.validate_sample_4)).
  vm_compute; lia.
Defined.

(** ** Claims about the digest methods *)

(** C7. [Reset] empties the accumulated bytes and keeps the salt, so
    [Write(A); Reset(); Write(B)] leaves a digest whose [Sum] is that of a
    fresh digest with the same salt after [Write(B)] alone. *)
Theorem reset_then_write (d : ssha1.digest) (A B : list byte) :
  let d1 := fst (ssha1.digest_Write d A) in
  let d2 := ssha1.digest_Reset d1 in
  let d3 := fst (ssha1.digest_Write d2 B) in
  ssha1.internal d2 = [] /\ ssha1.salt d2 = ssha1.salt d1
  /\ ssha1.salt d1 = ssha1.salt d
  /\ ssha1.digest_Sum d3 []
     = ssha1.digest_Sum (fst (ssha1.digest_Write (ssha1.Digest [] (ssha1.salt d)) B)) []
  /\ forall d0, ssha1.NewWithSalt (ssha1.salt d) = Ok d0 ->
       ssha1.digest_Sum d3 [] = ssha1.digest_Sum (fst (ssha1.digest_Write d0 B)) [].
Proof.
  cbv zeta. repeat (split; [reflexivity|]).
  intros d0 H0. unfold ssha1.NewWithSalt in H0.
  destruct (ssha1.len (ssha1.salt d) <? ssha1.MinSaltBytes); [discriminate H0|].
  injection H0 as <-. reflexivity.
Qed.

Lemma reset_then_write_witness :
  ssha1.NewWithSalt testdata.sum_salt_1 = Ok (ssha1.Digest [] testdata.sum_salt_1)
  /\ ssha1.digest_Sum
       (fst (ssha1.digest_Write
          (ssha1.digest_Reset
             (fst (ssha1.digest_Write (ssha1.Digest [] testdata.sum_salt_1)
                     testdata.sum_plaintext_2)))
          testdata.sum_plaintext_1)) []
     = ssha1.digest_Sum
         (fst (ssha1.digest_Write (ssha1.Digest [] testdata.sum_salt_1)
                 testdata.sum_plaintext_1)) [].
Proof.
  split; [reflexivity|].
  apply (proj2 (proj2 (proj2 (proj2
           (reset_then_write (ssha1.Digest [] testdata.sum_salt_1)
              testdata.sum_plaintext_2 testdata.sum_plaintext_1))))
           (ssha1.Digest [] testdata.sum_salt_1)).
  reflexivity.
Defined.

(** ** Claims about salts and the random source *)

Lemma rand_Read_enough (b : list byte) (r : rand.Reader) :
  (length b <= length r)%nat ->
  rand.Read b r = (take (length b) r, None, drop (length b) r).
Proof.
  intros H. unfold rand.Read.
  destruct (Nat.leb_spec (length b) (length r)) as [_|Hlt]; [reflexivity|lia].
Qed.

Lemma rand_Read_short (b : list byte) (r : rand.Reader) :
  (length r < length b)%nat ->
  exists bs e, rand.Read b r = (bs, Some e, []) /\ (e = EOF \/ e = ErrUnexpectedEOF).
Proof.
  intros H. unfold rand.Read.
  destruct (Nat.leb_spec (length b) (length r)) as [Hle|_]; [lia|].
  eexists. eexists. split; [reflexivity|].
  destruct r; [left|right]; reflexivity.
Qed.

Lemma length_make (n : Z) : length (ssha1.make n) = Z.to_nat n.
Proof. unfold ssha1.make. apply length_replicate. Qed.

Lemma NewForSaltSize_ok (n : Z) (r : rand.Reader) :
  1 <= n -> (Z.to_nat n <= length r)%nat ->
  ssha1.NewForSaltSize n r
  = (Ok (ssha1.Digest [] (take (Z.to_nat n) r)), drop (Z.to_nat n) r).
Proof.
  intros Hn Hr. unfold ssha1.NewForSaltSize, ssha1.MinSaltBytes.
  destruct (Z.ltb_spec n 1) as [Hlt|_]; [lia|].
  rewrite rand_Read_enough by (rewrite length_make; exact Hr).
  rewrite length_make. reflexivity.
Qed.

Lemma NewForSaltSize_rand_error (n : Z) (r : rand.Reader) :
  1 <= n -> (length r < Z.to_nat n)%nat ->
  exists e, ssha1.NewForSaltSize n r = (Err e, [])
            /\ (e = EOF \/ e = ErrUnexpectedEOF).
Proof.
  intros Hn Hr. unfold ssha1.NewForSaltSize, ssha1.MinSaltBytes.
  destruct (Z.ltb_spec n 1) as [Hlt|_]; [lia|].
  destruct (rand_Read_short (ssha1.make n) r) as [bs [e [HR He]]];
    [rewrite length_make; exact Hr|].
  rewrite HR. exists e. split; [reflexivity|exact He].
Qed.

Lemma New_ok (r : rand.Reader) :
  (20 <= length r)%nat ->
  ssha1.New r = (Ok (ssha1.Digest [] (take 20 r)), drop 20 r).
Proof.
  intros Hr. unfold ssha1.New.
  rewrite rand_Read_enough by (rewrite length_make; exact Hr).
  rewrite length_make. reflexivity.
Qed.

Lemma New_rand_error (r : rand.Reader) :
  (length r < 20)%nat ->
  exists e, ssha1.New r = (Err e, []) /\ (e = EOF \/ e = ErrUnexpectedEOF).
Proof.
  intros Hr. unfold ssha1.New.
  destruct (rand_Read_short (ssha1.make ssha1.DefaultNumSaltBytes) r)
    as [bs [e [HR He]]]; [rewrite length_make; exact Hr|].
  rewrite HR. exists e. split; [reflexivity|exact He].
Qed.

(** C5, as the code has it.  With a nil salt, [Sum] reads a salt of 20
    bytes from the random source: it succeeds when that read succeeds and
    returns the error of the read otherwise.  With a supplied salt of no
    bytes it fails with the invalid-salt-length error, as do [NewWithSalt]
    on an empty salt and [NewForSaltSize] on a size below one.
    [NewWithSalt] succeeds for every salt of at least one byte;
    [NewForSaltSize] for a size of at least one succeeds when the random
    source delivers that many bytes and returns the error of the read
    otherwise. *)
Theorem salt_length_policy (p : list byte) (r : rand.Reader) :
  ((20 <= length r)%nat ->
   length (take 20 r) = 20%nat
   /\ ssha1.Sum p None r
      = ((sha1.Sum (p ++ take 20 r) ++ take 20 r, None), drop 20 r))
  /\ ((length r < 20)%nat ->
      exists e, ssha1.Sum p None r = (([], Some e), [])
                /\ (e = EOF \/ e = ErrUnexpectedEOF))
  /\ fst (ssha1.Sum p (Some []) r)
     = ([], Some (errors.New ssha1.errMsgSaltTooShort))
  /\ ssha1.NewWithSalt [] = Err (errors.New ssha1.errMsgSaltTooShort)
  /\ (forall n, n <= 0 ->
        ssha1.NewForSaltSize n r = (Err (errors.New ssha1.errMsgSaltTooShort), r))
  /\ (forall s, (1 <= length s)%nat ->
        ssha1.NewWithSalt s = Ok (ssha1.Digest [] s))
  /\ (forall n, 1 <= n -> (Z.to_nat n <= length r)%nat ->
        length (take (Z.to_nat n) r) = Z.to_nat n
        /\ ssha1.NewForSaltSize n r
           = (Ok (ssha1.Digest [] (take (Z.to_nat n) r)), drop (Z.to_nat n) r))
  /\ (forall n, 1 <= n -> (length r < Z.to_nat n)%nat ->
        exists e, ssha1.NewForSaltSize n r = (Err e, [])
                  /\ (e = EOF \/ e = ErrUnexpectedEOF)).
Proof.
  split.
  { intros Hr. split; [apply length_take_le; exact Hr|].
    unfold ssha1.Sum. rewrite New_ok by exact Hr. reflexivity. }
  split.
  { intros Hr. destruct (New_rand_error r Hr) as [e [HN He]].
    exists e. split; [|exact He]. unfold ssha1.Sum. rewrite HN. reflexivity. }
  split; [reflexivity|].
  split; [reflexivity|].
  split.
  { intros n Hn. unfold ssha1.NewForSaltSize, ssha1.MinSaltBytes.
    destruct (Z.ltb_spec n 1) as [_|Hge]; [reflexivity|lia]. }
  split; [exact NewWithSalt_ok|].
  split.
  { intros n Hn Hr. split; [apply length_take_le; exact Hr|].
    apply NewForSaltSize_ok; assumption. }
  intros n Hn Hr. apply NewForSaltSize_rand_error; assumption.
Qed.

Lemma salt_length_policy_witness :
  (20 <= length testdata.validate_hash_3)%nat
  /\ length (take 20 testdata.validate_hash_3) = 20%nat
  /\ ssha1.Sum testdata.sum_plaintext_1 None testdata.validate_hash_3
     = ((sha1.Sum (testdata.sum_plaintext_1 ++ take 20 testdata.validate_hash_3)
           ++ take 20 testdata.validate_hash_3, None),
        drop 20 testdata.validate_hash_3).
Proof.
  split; [vm_compute; lia|].
  apply (proj1 (salt_length_policy testdata.sum_plaintext_1 testdata.validate_hash_3)).
  vm_compute; lia.
Defined.

(** C5 fails as stated: when the random source has nothing to deliver,
    [Sum] with a nil salt and [NewForSaltSize(1)] return the error of the
    read. *)
Lemma salt_from_failing_source :
  ssha1.Sum testdata.sum_plaintext_1 None [] = (([], Some EOF), [])
  /\ ssha1.NewForSaltSize 1 [] = (Err EOF, []).
Proof. split; reflexivity. Qed.

(** ** The cases of the package's tests *)

Example TestSum_1 :
  hex.EncodeToString
    (fst (fst (ssha1.Sum testdata.sum_plaintext_1 (Some testdata.sum_salt_1) [])))
  = testdata.sum_expected_1.
Proof. vm_compute. reflexivity. Qed.

Example TestSum_2 :
  hex.EncodeToString
    (fst (fst (ssha1.Sum testdata.sum_plaintext_2 (Some testdata.sum_salt_2) [])))
  = testdata.sum_expected_2.
Proof. vm_compute. reflexivity. Qed.

Example TestValidate_cases :
  ssha1.Validate testdata.validate_hash_1 testdata.validate_sample_1 = (true, None)
  /\ ssha1.Validate testdata.validate_hash_1 testdata.validate_sample_2 = (false, None)
  /\ ssha1.Validate testdata.validate_hash_3 testdata.validate_sample_3 = (true, None)
  /\ ssha1.Validate testdata.validate_hash_4 testdata.validate_sample_4 = (true, None)
  /\ ssha1.Validate testdata.validate_hash_5 []
     = (false, Some (errors.New ssha1.errMsgSliceTooShortSha1))
  /\ ssha1.Validate testdata.validate_hash_6 []
     = (false, Some (errors.New ssha1.errMsgSliceTooShortSsha1)).
Proof. repeat split; vm_compute; reflexivity. Qed.

Example TestHexString_case :
  ssha1.digest_HexString
    (fst (ssha1.digest_Write (ssha1.Digest [] testdata.hexstring_salt)
            testdata.hexstring_plaintext))
  = testdata.hexstring_expected.
Proof. vm_compute. reflexivity. Qed.

Example TestString_case :
  ssha1.digest_String
    (fst (ssha1.digest_Write (ssha1.Digest [] testdata.string_salt)
            testdata.string_plaintext))
  = testdata.string_expected.
Proof. vm_compute. reflexivity. Qed.

(** ** The encodings *)

Lemma byte_to_Z_range (b : byte) : 0 <= byte_to_Z b < 256.
Proof.
  unfold byte_to_Z. pose proof (Byte.to_N_bounded b) as H.
  split; [apply N2Z.is_nonneg|]. lia.
Qed.

Lemma byte_of_to_Z (b : byte) : byte_of_Z (byte_to_Z b) = b.
Proof.
  unfold byte_of_Z. rewrite Z.mod_small by apply byte_to_Z_range.
  unfold byte_to_Z. rewrite N2Z.id, Byte.of_to_N. reflexivity.
Qed.

(** A property of bytes checked on the 256 of them. *)
Lemma forall_byte (P : byte -> bool) :
  forallb P (map (fun n => byte_of_Z (Z.of_nat n)) (seq 0 256)) = true ->
  forall b, P b = true.
Proof.
  intros H b. rewrite forallb_forall in H. apply H.
  rewrite <- (byte_of_to_Z b). apply in_map_iff.
  exists (Z.to_nat (byte_to_Z b)). pose proof (byte_to_Z_range b) as Hb.
  split; [rewrite Z2Nat.id by lia; reflexivity|].
  apply in_seq. lia.
Qed.

Lemma hex_pair_checked (v : byte) : hex_pair_ok v = true.
Proof. revert v. apply forall_byte. vm_compute. reflexivity. Qed.

Lemma hex_pair_decodes (v : byte) (r : string) :
  hex.DecodeString
    (String (string_at hex.hextable (N.shiftr (Byte.to_N v) 4))
       (String (string_at hex.hextable (N.land (Byte.to_N v) 0x0f)) r))
  = option_map (cons v) (hex.DecodeString r).
Proof.
  cbn [hex.DecodeString].
  pose proof (hex_pair_checked v) as H. unfold hex_pair_ok in H. cbv zeta in H.
  destruct (hex.fromHexChar (string_at hex.hextable (N.shiftr (Byte.to_N v) 4)))
    as [a|]; [|discriminate H].
  destruct (hex.fromHexChar (string_at hex.hextable (N.land (Byte.to_N v) 15)))
    as [b|]; [|discriminate H].
  rewrite !andb_true_iff in H. destruct H as [[[[Ha Hb] Hv] _] _].
  apply N.eqb_eq in Ha. apply N.eqb_eq in Hb. apply Byte.byte_dec_bl in Hv.
  rewrite Hv. destruct (hex.DecodeString r); reflexivity.
Qed.

Lemma hex_roundtrip (bs : list byte) :
  hex.DecodeString (hex.EncodeToString bs) = Some bs.
Proof.
  induction bs as [|v bs IH]; [reflexivity|].
  cbn [hex.EncodeToString]. rewrite hex_pair_decodes, IH. reflexivity.
Qed.

Lemma hex_length (bs : list byte) :
  String.length (hex.EncodeToString bs) = (2 * length bs)%nat.
Proof.
  induction bs as [|v bs IH]; [reflexivity|].
  cbn [hex.EncodeToString String.length length]. rewrite IH. lia.
Qed.

Lemma existsb_eqb_In (c : ascii) (l : list ascii) :
  existsb (Ascii.eqb c) l = true -> In c l.
Proof.
  intros H. apply existsb_exists in H as [x [Hx Heq]].
  apply Ascii.eqb_eq in Heq. subst x. exact Hx.
Qed.

Lemma hex_digits (bs : list byte) :
  Forall (fun c => In c (list_ascii_of_string hex.hextable))
         (list_ascii_of_string (hex.EncodeToString bs)).
Proof.
  induction bs as [|v bs IH]; [constructor|].
  cbn [hex.EncodeToString list_ascii_of_string].
  pose proof (hex_pair_checked v) as H. unfold hex_pair_ok in H. cbv zeta in H.
  destruct (hex.fromHexChar (string_at hex.hextable (N.shiftr (Byte.to_N v) 4)));
    [|discriminate H].
  destruct (hex.fromHexChar (string_at hex.hextable (N.land (Byte.to_N v) 15)));
    [|discriminate H].
  rewrite !andb_true_iff in H. destruct H as [[_ Hhi] Hlo].
  constructor; [apply existsb_eqb_In; exact Hhi|].
  constructor; [apply existsb_eqb_In; exact Hlo|exact IH].
Qed.

(** *** Shifts and masks as arithmetic *)

Lemma lor_disjoint_add (a b k : Z) :
  0 <= k -> a mod 2 ^ k = 0 -> 0 <= b < 2 ^ k -> Z.lor a b = a + b.
Proof.
  intros Hk Ha Hb.
  assert (Hland : Z.land a b = 0).
  { apply Z.bits_inj'. intros n Hn.
    rewrite Z.land_spec, Z.bits_0.
    destruct (Z.lt_ge_cases n k) as [Hlt|Hge].
    - rewrite <- (Z.mod_pow2_bits_low a k n) by lia.
      rewrite Ha, Z.bits_0. reflexivity.
    - rewrite <- (Z.mod_small b (2 ^ k)) by lia.
      rewrite Z.mod_pow2_bits_high by lia. apply andb_false_r. }
  pose proof (Zbitwise.Z.add_lor_land a b) as H. rewrite Hland in H. lia.
Qed.

Lemma land_63 (x : Z) : Z.land x 0x3F = x mod 64.
Proof. change 0x3F with (Z.ones 6). rewrite Z.land_ones by lia. reflexivity. Qed.

Lemma quantum_arith (v0 v1 v2 v3 : Z) :
  0 <= v0 < 64 -> 0 <= v1 < 64 -> 0 <= v2 < 64 -> 0 <= v3 < 64 ->
  base64.quantum v0 v1 v2 v3 = v0 * 262144 + v1 * 4096 + v2 * 64 + v3.
Proof.
  intros H0 H1 H2 H3. unfold base64.quantum.
  rewrite !Z.shiftl_mul_pow2 by lia.
  change (2 ^ 18) with 262144. change (2 ^ 12) with 4096. change (2 ^ 6) with 64.
  rewrite (lor_disjoint_add (v0 * 262144) (v1 * 4096) 18);
    [|lia|change (2 ^ 18) with 262144; Z.div_mod_to_equations; lia
     |change (2 ^ 18) with 262144; lia].
  rewrite (lor_disjoint_add (v0 * 262144 + v1 * 4096) (v2 * 64) 12);
    [|lia|change (2 ^ 12) with 4096; Z.div_mod_to_equations; lia
     |change (2 ^ 12) with 4096; lia].
  rewrite (lor_disjoint_add (v0 * 262144 + v1 * 4096 + v2 * 64) v3 6);
    [|lia|change (2 ^ 6) with 64; Z.div_mod_to_equations; lia
     |change (2 ^ 6) with 64; lia].
  reflexivity.
Qed.

Lemma val3_arith (b0 b1 b2 : Z) :
  0 <= b0 < 256 -> 0 <= b1 < 256 -> 0 <= b2 < 256 ->
  Z.lor (Z.lor (Z.shiftl b0 16) (Z.shiftl b1 8)) b2 = b0 * 65536 + b1 * 256 + b2.
Proof.
  intros H0 H1 H2. rewrite !Z.shiftl_mul_pow2 by lia.
  change (2 ^ 16) with 65536. change (2 ^ 8) with 256.
  rewrite (lor_disjoint_add (b0 * 65536) (b1 * 256) 16);
    [|lia|change (2 ^ 16) with 65536; Z.div_mod_to_equations; lia
     |change (2 ^ 16) with 65536; lia].
  rewrite (lor_disjoint_add (b0 * 65536 + b1 * 256) b2 8);
    [|lia|change (2 ^ 8) with 256; Z.div_mod_to_equations; lia
     |change (2 ^ 8) with 256; lia].
  reflexivity.
Qed.

(** The four six-bit digits of a 24-bit value, and the value back. *)
Lemma sextets_of_val (val : Z) :
  0 <= val < 16777216 ->
  let s0 := Z.land (Z.shiftr val 18) 0x3F in
  let s1 := Z.land (Z.shiftr val 12) 0x3F in
  let s2 := Z.land (Z.shiftr val 6) 0x3F in
  let s3 := Z.land val 0x3F in
  0 <= s0 < 64 /\ 0 <= s1 < 64 /\ 0 <= s2 < 64 /\ 0 <= s3 < 64
  /\ val = s0 * 262144 + s1 * 4096 + s2 * 64 + s3.
Proof.
  intros Hval. cbv zeta. rewrite !land_63, !Z.shiftr_div_pow2 by lia.
  change (2 ^ 18) with 262144. change (2 ^ 12) with 4096. change (2 ^ 6) with 64.
  Z.div_mod_to_equations. lia.
Qed.

(** *** base64 *)

Lemma base64_digits_checked : forallb base64_digit_ok (seq 0 64) = true.
Proof. vm_compute. reflexivity. Qed.

Lemma base64_digit (v : Z) :
  0 <= v < 64 ->
  base64.decodeMap (base64.encode v) = Some v
  /\ Ascii.eqb (base64.encode v) base64.StdPadding = false.
Proof.
  intros Hv. pose proof base64_digits_checked as H.
  rewrite forallb_forall in H. specialize (H (Z.to_nat v)).
  unfold base64_digit_ok in H. cbv zeta in H.
  rewrite Z2Nat.id in H by lia.
  assert (Hin : In (Z.to_nat v) (seq 0 64)) by (apply in_seq; lia).
  specialize (H Hin).
  destruct (base64.decodeMap (base64.encode v)) as [m|]; [|discriminate H].
  rewrite !andb_true_iff in H. destruct H as [[Hm Hp] _].
  apply Z.eqb_eq in Hm. subst m.
  split; [reflexivity|]. apply negb_true_iff in Hp. exact Hp.
Qed.

Lemma base64_digit_in_alphabet (v : Z) :
  0 <= v < 64 -> In (base64.encode v) (list_ascii_of_string base64.encodeStd).
Proof.
  intros Hv. pose proof base64_digits_checked as H.
  rewrite forallb_forall in H. specialize (H (Z.to_nat v)).
  unfold base64_digit_ok in H. cbv zeta in H.
  rewrite Z2Nat.id in H by lia.
  assert (Hin : In (Z.to_nat v) (seq 0 64)) by (apply in_seq; lia).
  specialize (H Hin).
  destruct (base64.decodeMap (base64.encode v)) as [m|]; [|discriminate H].
  rewrite !andb_true_iff in H. destruct H as [_ Hin'].
  apply existsb_eqb_In. exact Hin'.
Qed.

Lemma byte_of_Z_eq (z : Z) (b : byte) : z mod 256 = byte_to_Z b -> byte_of_Z z = b.
Proof.
  intros H. rewrite <- (byte_of_to_Z b), <- H.
  unfold byte_of_Z. rewrite Z.mod_mod by lia. reflexivity.
Qed.

Lemma padding_is_padding : Ascii.eqb base64.StdPadding base64.StdPadding = true.
Proof. reflexivity. Qed.

Lemma decode_group3 (b0 b1 b2 : byte) (r : string) :
  let val := Z.lor (Z.lor (Z.shiftl (byte_to_Z b0) 16) (Z.shiftl (byte_to_Z b1) 8))
                   (byte_to_Z b2) in
  base64.DecodeString
    (String (base64.encode (Z.land (Z.shiftr val 18) 0x3F))
       (String (base64.encode (Z.land (Z.shiftr val 12) 0x3F))
          (String (base64.encode (Z.land (Z.shiftr val 6) 0x3F))
             (String (base64.encode (Z.land val 0x3F)) r))))
  = option_map (fun bs => b0 :: b1 :: b2 :: bs) (base64.DecodeString r).
Proof.
  intros val.
  pose proof (byte_to_Z_range b0) as R0. pose proof (byte_to_Z_range b1) as R1.
  pose proof (byte_to_Z_range b2) as R2.
  assert (Hval : val = byte_to_Z b0 * 65536 + byte_to_Z b1 * 256 + byte_to_Z b2)
    by (apply val3_arith; assumption).
  destruct (sextets_of_val val) as [S0 [S1 [S2 [S3 Hsum]]]]; [lia|].
  cbn [base64.DecodeString].
  destruct (base64_digit _ S0) as [-> _]. destruct (base64_digit _ S1) as [-> _].
  destruct (base64_digit _ S2) as [-> ->]. destruct (base64_digit _ S3) as [-> ->].
  rewrite quantum_arith by assumption. rewrite <- Hsum.
  rewrite !Z.shiftr_div_pow2 by lia.
  change (2 ^ 16) with 65536. change (2 ^ 8) with 256.
  rewrite (byte_of_Z_eq (val / 65536) b0) by (Z.div_mod_to_equations; lia).
  rewrite (byte_of_Z_eq (val / 256) b1) by (Z.div_mod_to_equations; lia).
  rewrite (byte_of_Z_eq val b2) by (Z.div_mod_to_equations; lia).
  destruct (base64.DecodeString r); reflexivity.
Qed.

Lemma decode_group2 (b0 b1 : byte) :
  let val := Z.lor (Z.shiftl (byte_to_Z b0) 16) (Z.shiftl (byte_to_Z b1) 8) in
  base64.DecodeString
    (String (base64.encode (Z.land (Z.shiftr val 18) 0x3F))
       (String (base64.encode (Z.land (Z.shiftr val 12) 0x3F))
          (String (base64.encode (Z.land (Z.shiftr val 6) 0x3F))
             (String base64.StdPadding EmptyString))))
  = Some [b0; b1].
Proof.
  intros val.
  pose proof (byte_to_Z_range b0) as R0. pose proof (byte_to_Z_range b1) as R1.
  assert (Hval : val = byte_to_Z b0 * 65536 + byte_to_Z b1 * 256).
  { unfold val. rewrite !Z.shiftl_mul_pow2 by lia.
    change (2 ^ 16) with 65536. change (2 ^ 8) with 256.
    apply (lor_disjoint_add _ _ 16);
      [lia|change (2 ^ 16) with 65536; Z.div_mod_to_equations; lia
      |change (2 ^ 16) with 65536; lia]. }
  destruct (sextets_of_val val) as [S0 [S1 [S2 [S3 Hsum]]]]; [lia|].
  assert (H3 : Z.land val 0x3F = 0)
    by (rewrite land_63; Z.div_mod_to_equations; lia).
  rewrite H3 in Hsum.
  cbn [base64.DecodeString].
  destruct (base64_digit _ S0) as [-> _]. destruct (base64_digit _ S1) as [-> _].
  destruct (base64_digit _ S2) as [-> ->].
  rewrite padding_is_padding. cbn [string_is_empty].
  rewrite quantum_arith by (assumption || lia). rewrite <- Hsum.
  rewrite !Z.shiftr_div_pow2 by lia.
  change (2 ^ 16) with 65536. change (2 ^ 8) with 256.
  rewrite (byte_of_Z_eq (val / 65536) b0) by (Z.div_mod_to_equations; lia).
  rewrite (byte_of_Z_eq (val / 256) b1) by (Z.div_mod_to_equations; lia).
  reflexivity.
Qed.

Lemma decode_group1 (b0 : byte) :
  let val := Z.shiftl (byte_to_Z b0) 16 in
  base64.DecodeString
    (String (base64.encode (Z.land (Z.shiftr val 18) 0x3F))
       (String (base64.encode (Z.land (Z.shiftr val 12) 0x3F))
          (String base64.StdPadding (String base64.StdPadding EmptyString))))
  = Some [b0].
Proof.
  intros val.
  pose proof (byte_to_Z_range b0) as R0.
  assert (Hval : val = byte_to_Z b0 * 65536).
  { unfold val. rewrite Z.shiftl_mul_pow2 by lia. reflexivity. }
  destruct (sextets_of_val val) as [S0 [S1 [S2 [S3 Hsum]]]]; [lia|].
  assert (H2 : Z.land (Z.shiftr val 6) 0x3F = 0).
  { rewrite land_63, Z.shiftr_div_pow2 by lia. change (2 ^ 6) with 64.
    Z.div_mod_to_equations; lia. }
  assert (H3 : Z.land val 0x3F = 0)
    by (rewrite land_63; Z.div_mod_to_equations; lia).
  rewrite H2, H3 in Hsum.
  cbn [base64.DecodeString].
  destruct (base64_digit _ S0) as [-> _]. destruct (base64_digit _ S1) as [-> _].
  rewrite padding_is_padding. cbn [andb string_is_empty].
  rewrite quantum_arith by (assumption || lia). rewrite <- Hsum.
  rewrite !Z.shiftr_div_pow2 by lia. change (2 ^ 16) with 65536.
  rewrite (byte_of_Z_eq (val / 65536) b0) by (Z.div_mod_to_equations; lia).
  reflexivity.
Qed.

Lemma list_ind3 {A : Type} (P : list A -> Prop) :
  P [] -> (forall a, P [a]) -> (forall a b, P [a; b]) ->
  (forall a b c l, P l -> P (a :: b :: c :: l)) ->
  forall l, P l.
Proof.
  intros H0 H1 H2 H3.
  assert (H : forall l, P l /\ (forall a, P (a :: l)) /\ (forall a b, P (a :: b :: l))).
  { induction l as [|x l [IH0 [IH1 IH2]]].
    - split; [exact H0|]. split; [exact H1|exact H2].
    - split; [apply IH1|]. split; [intros a; apply IH2|].
      intros a b. apply H3. exact IH0. }
  intros l. apply H.
Qed.

Lemma base64_roundtrip (bs : list byte) :
  base64.DecodeString (base64.EncodeToString bs) = Some bs.
Proof.
  induction bs as [|b0|b0 b1|b0 b1 b2 r IH] using list_ind3.
  - reflexivity.
  - apply decode_group1.
  - apply decode_group2.
  - cbn [base64.EncodeToString]. cbv zeta. rewrite decode_group3, IH. reflexivity.
Qed.

Lemma base64_length (bs : list byte) :
  String.length (base64.EncodeToString bs) = (4 * ((length bs + 2) / 3))%nat.
Proof.
  induction bs as [|b0|b0 b1|b0 b1 b2 r IH] using list_ind3; try reflexivity.
  cbn [base64.EncodeToString]. cbv zeta. cbn [String.length length]. rewrite IH.
  replace (S (S (S (length r))) + 2)%nat with (1 * 3 + (length r + 2))%nat by lia.
  rewrite Nat.div_add_l by lia. lia.
Qed.

Lemma land_63_range (x : Z) : 0 <= Z.land x 0x3F < 64.
Proof. rewrite land_63. apply Z.mod_pos_bound. lia. Qed.

Lemma base64_alphabet (bs : list byte) :
  Forall (fun c => In c (list_ascii_of_string base64.encodeStd) \/ c = base64.StdPadding)
         (list_ascii_of_string (base64.EncodeToString bs)).
Proof.
  induction bs as [|b0|b0 b1|b0 b1 b2 r IH] using list_ind3;
    cbn [base64.EncodeToString]; cbv zeta; cbn [list_ascii_of_string];
    repeat (constructor;
            [first [left; apply base64_digit_in_alphabet; apply land_63_range
                   |right; reflexivity]|]);
    first [exact IH|constructor].
Qed.

Lemma string_append_empty (s : string) : String.append s EmptyString = s.
Proof. induction s as [|c s IH]; [reflexivity|]. simpl. rewrite IH. reflexivity. Qed.

Lemma Sprintf_outputFmt (a : string) :
  fmt.Sprintf ssha1.outputFmt a = String.append "{SSHA}" a.
Proof.
  unfold ssha1.outputFmt. cbn [fmt.Sprintf Ascii.eqb Bool.eqb andb String.append].
  rewrite string_append_empty. reflexivity.
Qed.

(** C9. [HexString] is the lowercase hexadecimal encoding of [Sum(nil)],
    two digits a byte and nothing else; [String] is ["{SSHA}"] followed by
    the padded standard base64 encoding of [Sum(nil)]; decoding either one
    (the second after its prefix) gives back the bytes of [Sum(nil)]. *)
Theorem encodings_of_Sum (d : ssha1.digest) :
  let sum := ssha1.digest_Sum d [] in
  ssha1.digest_HexString d = hex.EncodeToString sum
  /\ String.length (ssha1.digest_HexString d) = (2 * length sum)%nat
  /\ Forall (fun c => In c (list_ascii_of_string "0123456789abcdef"))
            (list_ascii_of_string (ssha1.digest_HexString d))
  /\ ssha1.digest_String d = String.append "{SSHA}" (base64.EncodeToString sum)
  /\ String.length (base64.EncodeToString sum) = (4 * ((length sum + 2) / 3))%nat
  /\ Forall (fun c => In c (list_ascii_of_string base64.encodeStd) \/ c = "="%char)
            (list_ascii_of_string (base64.EncodeToString sum))
  /\ hex.DecodeString (ssha1.digest_HexString d) = Some sum
  /\ exists rest, ssha1.digest_String d = String.append "{SSHA}" rest
                  /\ base64.DecodeString rest = Some sum.
Proof.
  intros sum. unfold ssha1.digest_HexString, ssha1.digest_String. fold sum.
  rewrite Sprintf_outputFmt.
  split; [reflexivity|].
  split; [apply hex_length|].
  split; [apply hex_digits|].
  split; [reflexivity|].
  split; [apply base64_length|].
  split; [apply base64_alphabet|].
  split; [apply hex_roundtrip|].
  exists (base64.EncodeToString sum). split; [reflexivity|apply base64_roundtrip].
Qed.

(** ** Slices over backing arrays *)

Lemma copy_length (a : list byte) (i : nat) (xs : list byte) :
  (i + length xs <= length a)%nat -> length (mem.copy a i xs) = length a.
Proof.
  intros H. unfold mem.copy.
  rewrite !length_app, length_take, length_drop. lia.
Qed.

(** A window that ends where the copy starts is not touched. *)
Lemma copy_before (a : list byte) (off n i : nat) (xs : list byte) :
  (off + n <= i)%nat -> (i <= length a)%nat ->
  take n (drop off (mem.copy a i xs)) = take n (drop off a).
Proof.
  intros H Hi. unfold mem.copy.
  rewrite !take_drop_commute. f_equal.
  rewrite take_app_le by (rewrite length_take; lia).
  rewrite take_take. f_equal. lia.
Qed.

(** A window that starts before the copy and ends with it. *)
Lemma copy_through (a : list byte) (off n : nat) (xs : list byte) :
  (off + n + length xs <= length a)%nat ->
  take (n + length xs) (drop off (mem.copy a (off + n) xs))
  = take n (drop off a) ++ xs.
Proof.
  intros H. unfold mem.copy.
  rewrite drop_app_le by (rewrite length_take; lia).
  rewrite <- take_drop_commute.
  rewrite take_app_ge by (rewrite length_take, length_drop; lia).
  rewrite length_take, length_drop.
  replace (n + length xs - n `min` (length a - off))%nat with (length xs) by lia.
  rewrite take_app_length. reflexivity.
Qed.

Lemma contents_Some (m : mem.store) (h : mem.header) (a : list byte) :
  m !! mem.array h = Some a ->
  mem.contents m (Some h) = take (mem.length_ h) (drop (mem.offset h) a).
Proof. intros H. unfold mem.contents. rewrite H. reflexivity. Qed.

Lemma contents_length (m : mem.store) (s : mem.slice) :
  mem.valid m s -> length (mem.contents m s) = mem.len s.
Proof.
  destruct s as [h|]; [|reflexivity].
  intros [a [Ha [Hcap Hlen]]]. rewrite (contents_Some m h a Ha).
  rewrite length_take, length_drop. simpl. lia.
Qed.

Lemma separate_sym (s t : mem.slice) : mem.separate s t -> mem.separate t s.
Proof. destruct s, t; simpl; auto. Qed.

Lemma extends_refl (m : mem.store) : mem.extends m m.
Proof. intros i a H. eauto. Qed.

Lemma extends_trans (m1 m2 m3 : mem.store) :
  mem.extends m1 m2 -> mem.extends m2 m3 -> mem.extends m1 m3.
Proof.
  intros H12 H23 i a H. destruct (H12 i a H) as [a' [H' Hl']].
  destruct (H23 i a' H') as [a'' [H'' Hl'']]. exists a''. split; [exact H''|lia].
Qed.

Lemma valid_extends (m m' : mem.store) (s : mem.slice) :
  mem.extends m m' -> mem.valid m s -> mem.valid m' s.
Proof.
  intros He. destruct s as [h|]; [|trivial].
  intros [a [Ha [Hcap Hlen]]]. destruct (He _ _ Ha) as [a' [Ha' Hl']].
  exists a'. split; [exact Ha'|]. split; lia.
Qed.

Lemma valid_in_store (m : mem.store) (h : mem.header) :
  mem.valid m (Some h) -> (mem.array h < length m)%nat.
Proof. intros [a [Ha _]]. apply lookup_lt_Some in Ha. exact Ha. Qed.

(** *** [alloc] *)

Lemma alloc_spec (a : list byte) (m : mem.store) :
  let '(s, m') := mem.alloc a m in
  s = Some (mem.Header (length m) 0 (length a) (length a))
  /\ m' = m ++ [a]
  /\ mem.contents m' s = a
  /\ mem.valid m' s
  /\ mem.extends m m'
  /\ (forall u, mem.valid m u -> mem.contents m' u = mem.contents m u).
Proof.
  unfold mem.alloc.
  assert (Hl : (m ++ [a]) !! length m = Some a).
  { rewrite lookup_app_r by lia. rewrite Nat.sub_diag. reflexivity. }
  split; [reflexivity|]. split; [reflexivity|].
  split; [unfold mem.contents; cbn [mem.array mem.offset mem.length_];
          rewrite Hl; simpl; apply take_ge; lia|].
  split; [exists a; simpl; split; [exact Hl|lia]|].
  split.
  - intros i b Hb. exists b. split; [apply lookup_app_l_Some; exact Hb|reflexivity].
  - intros [k|] Hk; [|reflexivity]. unfold mem.contents.
    rewrite lookup_app_l by (apply valid_in_store; exact Hk). reflexivity.
Qed.

(** *** [append] *)

Section append_properties.

Variable growslice : nat -> nat -> nat.

(** What [append(s, t...)] does to the store: the result holds the
    elements of [s] then those of [t]; no array is removed or resized;
    the elements of [s] itself, and of every slice in another array, are
    as before; and the result lives in the array of [s] or in a new one. *)
Lemma append_spec (s t : mem.slice) (m : mem.store) :
  mem.valid m s ->
  let '(s', m') := mem.append growslice s t m in
  mem.contents m' s' = mem.contents m s ++ mem.contents m t
  /\ mem.valid m' s'
  /\ mem.extends m m'
  /\ mem.contents m' s = mem.contents m s
  /\ (forall u, mem.valid m u -> mem.separate s u ->
                mem.contents m' u = mem.contents m u)
  /\ (forall u, mem.valid m u -> mem.separate s u -> mem.separate s' u).
Proof.
  intros Hs. unfold mem.append.
  set (xs := mem.contents m t).
  destruct (Nat.leb_spec (mem.len s + length xs) (mem.cap s)) as [Hfit|Hgrow].
  - (* in place *)
    destruct s as [h|].
    + destruct Hs as [a [Ha [Hcap Hlen]]]. simpl in Hfit.
      set (a' := mem.copy a (mem.offset h + mem.length_ h) xs).
      assert (Ha' : alter (fun a => mem.copy a (mem.offset h + mem.length_ h) xs)
                          (mem.array h) m !! mem.array h = Some a').
      { rewrite list_lookup_alter_eq, Ha. reflexivity. }
      assert (Hla' : length a' = length a) by (apply copy_length; lia).
      split.
      { cbn [mem.len].
        rewrite (contents_Some _ (mem.Header (mem.array h) (mem.offset h)
                   (mem.length_ h + length xs) (mem.capacity h)) a' Ha').
        cbn [mem.offset mem.length_]. unfold a'.
        rewrite copy_through by lia.
        rewrite (contents_Some m h a Ha). reflexivity. }
      split.
      { exists a'. cbn [mem.array mem.offset mem.length_ mem.capacity mem.len].
        split; [exact Ha'|]. split; lia. }
      split.
      { intros i b Hb. destruct (decide (i = mem.array h)) as [->|Hne].
        - exists a'. split; [exact Ha'|]. rewrite Hla'. congruence.
        - exists b. split; [|reflexivity].
          rewrite list_lookup_alter_ne by congruence. exact Hb. }
      split.
      { rewrite (contents_Some _ h a' Ha'), (contents_Some m h a Ha).
        unfold a'. apply copy_before; lia. }
      split.
      { intros [k|] Hk Hsep; [|reflexivity]. simpl in Hsep.
        unfold mem.contents. rewrite list_lookup_alter_ne by exact Hsep.
        reflexivity. }
      { intros [k|] Hk Hsep; [|exact I]. exact Hsep. }
    + (* appending nothing to nil *)
      simpl in Hfit.
      assert (Hxs : xs = []) by (destruct xs; [reflexivity|simpl in Hfit; lia]).
      split; [rewrite Hxs; reflexivity|].
      split; [exact I|].
      split; [apply extends_refl|].
      split; [reflexivity|].
      split; [reflexivity|]. intros; exact I.
  - (* a new array *)
    set (n := (mem.len s + length xs)%nat) in *.
    set (c := Nat.max n (growslice (mem.cap s) n)).
    set (a' := (mem.contents m s ++ xs) ++ replicate (c - n) x00).
    assert (Ha' : (m ++ [a']) !! length m = Some a').
    { rewrite lookup_app_r by lia. rewrite Nat.sub_diag. reflexivity. }
    assert (Hn : length (mem.contents m s ++ xs) = n).
    { rewrite length_app, contents_length by exact Hs. reflexivity. }
    assert (Hold : forall u, mem.valid m u ->
                             mem.contents (m ++ [a']) u = mem.contents m u).
    { intros [k|] Hk; [|reflexivity]. unfold mem.contents.
      rewrite lookup_app_l by (apply valid_in_store; exact Hk). reflexivity. }
    split.
    { rewrite (contents_Some _ (mem.Header (length m) 0 n c) a' Ha').
      cbn [mem.offset mem.length_]. rewrite drop_0. unfold a'.
      rewrite take_app_length' by (symmetry; exact Hn). reflexivity. }
    split.
    { exists a'. cbn [mem.array mem.offset mem.length_ mem.capacity].
      split; [exact Ha'|]. unfold a'.
      rewrite length_app, Hn, length_replicate. lia. }
    split.
    { intros i b Hb. exists b.
      split; [apply lookup_app_l_Some; exact Hb|reflexivity]. }
    split; [apply Hold; exact Hs|].
    split; [intros u Hu _; apply Hold; exact Hu|].
    intros [k|] Hk _; [|exact I]. simpl.
    apply valid_in_store in Hk. lia.
Qed.

End append_properties.

(** *** The digest methods on a store *)

Lemma fresh_separate (m : mem.store) (h : mem.header) (u : mem.slice) :
  mem.array h = length m -> mem.valid m u -> mem.separate (Some h) u.
Proof.
  intros Hh Hu. destruct u as [k|]; [|exact I]. simpl.
  apply valid_in_store in Hu. lia.
Qed.

Section digest_properties.

Variable growslice : nat -> nat -> nat.

(** [Reset] refines [ssha1.digest_Reset] and establishes the invariant. *)
Lemma digest_Reset_spec (d : mem.digest) (m : mem.store) :
  mem.valid m (mem.salt d) ->
  let '(d', m') := mem.digest_Reset d m in
  mem.abs m' d' = ssha1.digest_Reset (mem.abs m d)
  /\ mem.wf m' d' /\ mem.extends m m' /\ mem.salt d' = mem.salt d
  /\ (forall u, mem.valid m u ->
        mem.contents m' u = mem.contents m u /\ mem.separate (mem.internal d') u).
Proof.
  intros Hsalt. unfold mem.digest_Reset, mem.make.
  pose proof (alloc_spec (replicate 0 x00) m) as H.
  destruct (mem.alloc (replicate 0 x00) m) as [s m'].
  destruct H as [Hs [_ [Hc [Hv [He Hf]]]]].
  assert (Hfresh : forall u, mem.valid m u -> mem.separate s u)
    by (intros u Hu; rewrite Hs; apply (fresh_separate m); [reflexivity|exact Hu]).
  split.
  { unfold mem.abs. cbn [mem.internal mem.salt]. rewrite Hc, (Hf _ Hsalt).
    reflexivity. }
  split.
  { split; [exact Hv|]. split; [apply (valid_extends m m' _ He Hsalt)|].
    cbn [mem.internal mem.salt]. apply Hfresh. exact Hsalt. }
  split; [exact He|]. split; [reflexivity|].
  intros u Hu. split; [apply Hf; exact Hu|apply Hfresh; exact Hu].
Qed.

(** [Write] refines [ssha1.digest_Write] and keeps the invariant. *)
Lemma digest_Write_spec (d : mem.digest) (p : mem.slice) (m : mem.store) :
  mem.wf m d ->
  let '(d', _, m') := mem.digest_Write growslice d p m in
  mem.abs m' d' = fst (ssha1.digest_Write (mem.abs m d) (mem.contents m p))
  /\ mem.wf m' d' /\ mem.extends m m' /\ mem.salt d' = mem.salt d
  /\ (forall u, mem.valid m u -> mem.separate (mem.internal d) u ->
        mem.contents m' u = mem.contents m u /\ mem.separate (mem.internal d') u).
Proof.
  intros [Hi [Hs Hsep]]. unfold mem.digest_Write.
  pose proof (append_spec growslice (mem.internal d) p m Hi) as H.
  destruct (mem.append growslice (mem.internal d) p m) as [s m'].
  destruct H as [Hc [Hv [He [_ [Hf Hsp]]]]].
  split.
  { unfold mem.abs. cbn [mem.internal mem.salt]. rewrite Hc, (Hf _ Hs Hsep).
    reflexivity. }
  split.
  { split; [exact Hv|]. split; [apply (valid_extends m m' _ He Hs)|].
    cbn [mem.internal mem.salt]. apply Hsp; assumption. }
  split; [exact He|]. split; [reflexivity|].
  intros u Hu Hsu. split; [apply Hf; assumption|apply Hsp; assumption].
Qed.

(** [Sum] refines [ssha1.digest_Sum]; it leaves the elements of the
    accumulated slice and of the salt as they were, and keeps the
    invariant.  The slice [in_] given to it must not share an array with
    the digest; the nil slice never does. *)
Lemma digest_Sum_spec (d : mem.digest) (in_ : mem.slice) (m : mem.store) :
  mem.wf m d -> mem.valid m in_ ->
  mem.separate in_ (mem.internal d) -> mem.separate in_ (mem.salt d) ->
  let '(r, m') := mem.digest_Sum growslice d in_ m in
  mem.contents m' r = ssha1.digest_Sum (mem.abs m d) (mem.contents m in_)
  /\ mem.abs m' d = mem.abs m d
  /\ mem.wf m' d /\ mem.valid m' r /\ mem.extends m m'
  /\ (forall u, mem.valid m u -> mem.separate (mem.internal d) u ->
        mem.separate in_ u -> mem.contents m' u = mem.contents m u).
Proof.
  intros [Hi [Hs Hsep]] Hin Hin_i Hin_s. unfold mem.digest_Sum.
  (* tmp := append(d.internal, d.salt...) *)
  pose proof (append_spec growslice (mem.internal d) (mem.salt d) m Hi) as H1.
  destruct (mem.append growslice (mem.internal d) (mem.salt d) m) as [tmp m1].
  destruct H1 as [Hc1 [Hv1 [He1 [Hi1 [Hf1 _]]]]].
  assert (Hs1 : mem.contents m1 (mem.salt d) = mem.contents m (mem.salt d))
    by (apply Hf1; assumption).
  assert (Hin1 : mem.contents m1 in_ = mem.contents m in_)
    by (apply Hf1; [assumption|apply separate_sym; assumption]).
  assert (Vi1 := valid_extends m m1 _ He1 Hi).
  assert (Vs1 := valid_extends m m1 _ He1 Hs).
  assert (Vin1 := valid_extends m m1 _ He1 Hin).
  (* sum := sha1.Sum(tmp) *)
  pose proof (alloc_spec (sha1.Sum (mem.contents m1 tmp)) m1) as H2.
  destruct (mem.alloc (sha1.Sum (mem.contents m1 tmp)) m1) as [sum m2].
  destruct H2 as [Hsum [_ [Hc2 [Hv2 [He2 Hf2]]]]].
  assert (Vi2 := valid_extends m1 m2 _ He2 Vi1).
  assert (Vs2 := valid_extends m1 m2 _ He2 Vs1).
  assert (Vin2 := valid_extends m1 m2 _ He2 Vin1).
  assert (Hfresh : forall u, mem.valid m1 u -> mem.separate sum u)
    by (intros u Hu; rewrite Hsum; apply (fresh_separate m1); [reflexivity|exact Hu]).
  (* tmp = append(sum[:], d.salt...) *)
  pose proof (append_spec growslice sum (mem.salt d) m2 Hv2) as H3.
  destruct (mem.append growslice sum (mem.salt d) m2) as [tmp2 m3].
  destruct H3 as [Hc3 [Hv3 [He3 [_ [Hf3 _]]]]].
  assert (Vi3 := valid_extends m2 m3 _ He3 Vi2).
  assert (Vs3 := valid_extends m2 m3 _ He3 Vs2).
  assert (Vin3 := valid_extends m2 m3 _ He3 Vin2).
  (* return append(in, tmp...) *)
  pose proof (append_spec growslice in_ tmp2 m3 Vin3) as H4.
  destruct (mem.append growslice in_ tmp2 m3) as [r m4].
  destruct H4 as [Hc4 [Hv4 [He4 [_ [Hf4 _]]]]].
  assert (Hi4 : mem.contents m4 (mem.internal d) = mem.contents m (mem.internal d)).
  { rewrite (Hf4 _ Vi3 Hin_i), (Hf3 _ Vi2 (Hfresh _ Vi1)), (Hf2 _ Vi1). exact Hi1. }
  assert (Hs4 : mem.contents m4 (mem.salt d) = mem.contents m (mem.salt d)).
  { rewrite (Hf4 _ Vs3 Hin_s), (Hf3 _ Vs2 (Hfresh _ Vs1)), (Hf2 _ Vs1). exact Hs1. }
  split.
  { rewrite Hc4, Hc3, Hc2, Hc1.
    rewrite (Hf3 _ Vin2 (Hfresh _ Vin1)), (Hf2 _ Vin1), Hin1.
    rewrite (Hf2 _ Vs1), Hs1. reflexivity. }
  split; [unfold mem.abs; rewrite Hi4, Hs4; reflexivity|].
  split.
  { split; [apply (valid_extends m3 m4 _ He4 Vi3)|].
    split; [apply (valid_extends m3 m4 _ He4 Vs3)|exact Hsep]. }
  split; [exact Hv4|].
  split; [exact (extends_trans _ _ _ He1 (extends_trans _ _ _ He2
                   (extends_trans _ _ _ He3 He4)))|].
  intros u Hu Hiu Hinu.
  assert (Vu1 := valid_extends m m1 _ He1 Hu).
  assert (Vu2 := valid_extends m1 m2 _ He2 Vu1).
  assert (Vu3 := valid_extends m2 m3 _ He3 Vu2).
  rewrite (Hf4 _ Vu3 Hinu), (Hf3 _ Vu2 (Hfresh _ Vu1)), (Hf2 _ Vu1).
  apply Hf1; assumption.
Qed.

End digest_properties.

(** ** Claims about the read operations *)

Section read_operations.

Variable growslice : nat -> nat -> nat.

Lemma digest_Sum_nil_spec (d : mem.digest) (m : mem.store) :
  mem.wf m d ->
  let '(r, m') := mem.digest_Sum growslice d None m in
  mem.contents m' r = ssha1.digest_Sum (mem.abs m d) []
  /\ mem.abs m' d = mem.abs m d /\ mem.wf m' d /\ mem.valid m' r
  /\ mem.extends m m'
  /\ (forall u, mem.valid m u -> mem.separate (mem.internal d) u ->
        mem.contents m' u = mem.contents m u).
Proof.
  intros Hwf.
  pose proof (digest_Sum_spec growslice d None m Hwf I I I) as H.
  destruct (mem.digest_Sum growslice d None m) as [r m'].
  destruct H as [Hc [Ha [Hw [Hv [He Hf]]]]].
  split; [exact Hc|]. split; [exact Ha|]. split; [exact Hw|].
  split; [exact Hv|]. split; [exact He|].
  intros u Hu Hiu. apply Hf; [assumption|assumption|exact I].
Qed.

(** [Sum(in)] with any valid [in], even one in an array of the digest,
    removes and resizes no array. *)
Lemma digest_Sum_extends (d : mem.digest) (in_ : mem.slice) (m : mem.store) :
  mem.wf m d -> mem.valid m in_ ->
  mem.extends m (snd (mem.digest_Sum growslice d in_ m)).
Proof.
  intros [Hi [Hs _]] Hin. unfold mem.digest_Sum.
  pose proof (append_spec growslice (mem.internal d) (mem.salt d) m Hi) as H1.
  destruct (mem.append growslice (mem.internal d) (mem.salt d) m) as [tmp m1].
  destruct H1 as [_ [_ [He1 _]]].
  pose proof (alloc_spec (sha1.Sum (mem.contents m1 tmp)) m1) as H2.
  destruct (mem.alloc (sha1.Sum (mem.contents m1 tmp)) m1) as [sum m2].
  destruct H2 as [_ [_ [_ [Hv2 [He2 _]]]]].
  pose proof (append_spec growslice sum (mem.salt d) m2 Hv2) as H3.
  destruct (mem.append growslice sum (mem.salt d) m2) as [tmp2 m3].
  destruct H3 as [_ [_ [He3 _]]].
  assert (Vin3 : mem.valid m3 in_).
  { apply (valid_extends m2 m3 _ He3), (valid_extends m1 m2 _ He2),
      (valid_extends m m1 _ He1). exact Hin. }
  pose proof (append_spec growslice in_ tmp2 m3 Vin3) as H4.
  destruct (mem.append growslice in_ tmp2 m3) as [r m4].
  destruct H4 as [_ [_ [He4 _]]]. cbn [snd].
  exact (extends_trans _ _ _ He1 (extends_trans _ _ _ He2
           (extends_trans _ _ _ He3 He4))).
Qed.

(** Every read operation keeps the invariant, whatever valid slice [Sum]
    is given. *)
Lemma run_read_wf (op : mem.read_op) (d : mem.digest) (m : mem.store) :
  mem.wf m d -> mem.read_valid m op ->
  let '(o, m') := mem.run_read growslice op d m in
  mem.wf m' d /\ mem.extends m m'.
Proof.
  intros Hwf Hv.
  assert (Hkeep : forall m', mem.extends m m' -> mem.wf m' d /\ mem.extends m m').
  { intros m' He. split; [|exact He]. destruct Hwf as [Hi [Hs Hsep]].
    split; [apply (valid_extends m m' _ He Hi)|].
    split; [apply (valid_extends m m' _ He Hs)|exact Hsep]. }
  destruct op as [in_| |]; unfold mem.run_read, mem.digest_HexString,
    mem.digest_String.
  - pose proof (digest_Sum_extends d in_ m Hwf Hv) as He.
    destruct (mem.digest_Sum growslice d in_ m) as [r m']. apply Hkeep. exact He.
  - pose proof (digest_Sum_extends d None m Hwf I) as He.
    destruct (mem.digest_Sum growslice d None m) as [r m']. apply Hkeep. exact He.
  - pose proof (digest_Sum_extends d None m Hwf I) as He.
    destruct (mem.digest_Sum growslice d None m) as [r m']. apply Hkeep. exact He.
Qed.

Lemma apart_extends (m m' : mem.store) (d : mem.digest) (op : mem.read_op) :
  mem.extends m m' -> mem.apart m d op -> mem.apart m' d op.
Proof.
  intros He. destruct op as [in_| |]; [|trivial|trivial].
  intros [Hv Hsep]. split; [apply (valid_extends m m' _ He Hv)|exact Hsep].
Qed.

(** A read operation whose slice shares no array with the digest returns
    what the operation returns on the digest's contents and leaves them as
    they were. *)
Lemma run_read_spec (op : mem.read_op) (d : mem.digest) (m : mem.store) :
  mem.wf m d -> mem.apart m d op ->
  let '(o, m') := mem.run_read growslice op d m in
  o = mem.read_pure m op (mem.abs m d)
  /\ mem.abs m' d = mem.abs m d /\ mem.wf m' d /\ mem.extends m m'.
Proof.
  intros Hwf Hap.
  destruct op as [in_| |]; unfold mem.run_read, mem.digest_HexString,
    mem.digest_String.
  - destruct Hap as [Hv [Hsi Hss]].
    pose proof (digest_Sum_spec growslice d in_ m Hwf Hv Hsi Hss) as H.
    destruct (mem.digest_Sum growslice d in_ m) as [r m'].
    destruct H as [Hc [Ha [Hw [_ [He _]]]]].
    split; [cbn [mem.read_pure]; rewrite Hc; reflexivity|].
    split; [exact Ha|split; [exact Hw|exact He]].
  - pose proof (digest_Sum_nil_spec d m Hwf) as H.
    destruct (mem.digest_Sum growslice d None m) as [r m'].
    destruct H as [Hc [Ha [Hw [_ [He _]]]]].
    split; [cbn [mem.read_pure]; unfold ssha1.digest_HexString; rewrite Hc;
            reflexivity|].
    split; [exact Ha|split; [exact Hw|exact He]].
  - pose proof (digest_Sum_nil_spec d m Hwf) as H.
    destruct (mem.digest_Sum growslice d None m) as [r m'].
    destruct H as [Hc [Ha [Hw [_ [He _]]]]].
    split; [cbn [mem.read_pure]; unfold ssha1.digest_String; rewrite Hc;
            reflexivity|].
    split; [exact Ha|split; [exact Hw|exact He]].
Qed.

(** A sequence of such read operations: the [i]-th result is what the
    operation returns on the contents the digest had at the start, [Sum]
    being given the elements its slice has when the call is made, that is
    after the first [i] operations. *)
Lemma run_reads_spec (ops : list mem.read_op) (d : mem.digest) (m : mem.store) :
  mem.wf m d -> Forall (mem.apart m d) ops ->
  mem.abs (snd (mem.run_reads growslice ops d m)) d = mem.abs m d
  /\ mem.wf (snd (mem.run_reads growslice ops d m)) d
  /\ mem.extends m (snd (mem.run_reads growslice ops d m))
  /\ forall i op, ops !! i = Some op ->
       fst (mem.run_reads growslice ops d m) !! i
       = Some (mem.read_pure (snd (mem.run_reads growslice (take i ops) d m)) op
                 (mem.abs m d)).
Proof.
  revert m. induction ops as [|op0 ops IH]; intros m Hwf Hall.
  - cbn [mem.run_reads fst snd].
    split; [reflexivity|]. split; [exact Hwf|]. split; [apply extends_refl|].
    intros i op Hi. destruct i; discriminate Hi.
  - apply Forall_cons_1 in Hall as [Hap0 Hall].
    pose proof (run_read_spec op0 d m Hwf Hap0) as H1.
    destruct (mem.run_read growslice op0 d m) as [o m1] eqn:E1.
    destruct H1 as [Ho [Ha1 [Hw1 He1]]].
    assert (Hall1 : Forall (mem.apart m1 d) ops).
    { eapply Forall_impl; [exact Hall|]. intros op. apply apart_extends. exact He1. }
    destruct (IH m1 Hw1 Hall1) as [Ha2 [Hw2 [He2 Hobs]]].
    assert (Hrun : forall l, mem.run_reads growslice (op0 :: l) d m
                             = (o :: fst (mem.run_reads growslice l d m1),
                                snd (mem.run_reads growslice l d m1))).
    { intros l. cbn [mem.run_reads]. rewrite E1.
      destruct (mem.run_reads growslice l d m1). reflexivity. }
    rewrite Hrun. cbn [fst snd].
    split; [rewrite Ha2; exact Ha1|]. split; [exact Hw2|].
    split; [exact (extends_trans _ _ _ He1 He2)|].
    intros i op Hi. destruct i as [|i].
    + cbn [take mem.run_reads snd]. injection Hi as <-. rewrite Ho. reflexivity.
    + cbn [take]. rewrite Hrun. cbn [snd]. rewrite <- Ha1.
      exact (Hobs i op Hi).
Qed.

End read_operations.

(** C8. [Sum(in)] can change the state of the digest, although the
    comment on [Sum] says that it does not change the underlying hash
    state: its last [append] writes into the array of [in] when that has
    room, and [NewWithSalt] keeps the slice of the caller as the salt.  A
    caller keeps salt and result in one buffer of 32 bytes and makes the
    digest by [NewWithSalt(buf[:2])]; [Sum(buf[:0])] then puts the 22 bytes
    of its result over the salt, which was "XY" and now is the first two
    bytes of the checksum, and [Sum(nil)] before and after that call
    returns different bytes. *)
Theorem Sum_in_overwrites_the_salt :
  mem.NewWithSalt memdata.alias_salt memdata.alias_store
  = (Ok memdata.alias_digest, memdata.alias_store1)
  /\ mem.reachable mem.example_growslice memdata.alias_store1 memdata.alias_digest
  /\ mem.read_valid memdata.alias_store1 (mem.OpSum memdata.alias_in)
  /\ mem.abs memdata.alias_store1 memdata.alias_digest
     = ssha1.Digest [] (bytes_of_string "XY")
  /\ mem.abs (snd (mem.run_read mem.example_growslice (mem.OpSum memdata.alias_in)
                     memdata.alias_digest memdata.alias_store1))
             memdata.alias_digest
     = ssha1.Digest [] (take 2 (sha1.Sum (bytes_of_string "XY")))
  /\ take 2 (sha1.Sum (bytes_of_string "XY")) <> bytes_of_string "XY"
  /\ fst (mem.run_reads mem.example_growslice
            [mem.OpSum None; mem.OpSum memdata.alias_in; mem.OpSum None]
            memdata.alias_digest memdata.alias_store1)
     = [mem.ObsBytes (sha1.Sum (bytes_of_string "XY") ++ bytes_of_string "XY");
        mem.ObsBytes (sha1.Sum (bytes_of_string "XY") ++ bytes_of_string "XY");
        mem.ObsBytes (sha1.Sum (take 2 (sha1.Sum (bytes_of_string "XY")))
                      ++ take 2 (sha1.Sum (bytes_of_string "XY")))]
  /\ sha1.Sum (bytes_of_string "XY") ++ bytes_of_string "XY"
     <> sha1.Sum (take 2 (sha1.Sum (bytes_of_string "XY")))
        ++ take 2 (sha1.Sum (bytes_of_string "XY")).
Proof.
  assert (Hsalt : mem.valid memdata.alias_store memdata.alias_salt).
  { exists (bytes_of_string "XY" ++ replicate 30 x00).
    split; [reflexivity|simpl; lia]. }
  split; [reflexivity|].
  split.
  { apply (mem.reach_NewWithSalt mem.example_growslice memdata.alias_salt
             memdata.alias_store); [exact Hsalt|reflexivity]. }
  split.
  { exists (bytes_of_string "XY" ++ replicate 30 x00).
    split; [reflexivity|simpl; lia]. }
  split; [reflexivity|].
  split; [vm_compute; reflexivity|].
  split; [vm_compute; discriminate|].
  split; [vm_compute; reflexivity|].
  vm_compute. discriminate.
Qed.

(** X15. What does hold of the read operations: any sequence of
    [HexString], [String] and [Sum(in)] calls whose [in] is nil or shares no
    array with the digest leaves the accumulated bytes and the salt as they
    were and keeps the invariant, and every call returns what the
    operation returns on those unchanged contents, so that [Sum(nil)],
    [HexString] and [String] return the same each time. *)
Theorem separate_reads_leave_digest_unchanged (growslice : nat -> nat -> nat)
    (ops : list mem.read_op) (d : mem.digest) (m : mem.store) :
  mem.wf m d -> Forall (mem.apart m d) ops ->
  mem.abs (snd (mem.run_reads growslice ops d m)) d = mem.abs m d
  /\ mem.wf (snd (mem.run_reads growslice ops d m)) d
  /\ (forall i op, ops !! i = Some op ->
        fst (mem.run_reads growslice ops d m) !! i
        = Some (mem.read_pure (snd (mem.run_reads growslice (take i ops) d m)) op
                  (mem.abs m d)))
  /\ (forall i, ops !! i = Some (mem.OpSum None) ->
        fst (mem.run_reads growslice ops d m) !! i
        = Some (mem.ObsBytes (ssha1.digest_Sum (mem.abs m d) [])))
  /\ (forall i, ops !! i = Some mem.OpHexString ->
        fst (mem.run_reads growslice ops d m) !! i
        = Some (mem.ObsString (ssha1.digest_HexString (mem.abs m d))))
  /\ (forall i, ops !! i = Some mem.OpString ->
        fst (mem.run_reads growslice ops d m) !! i
        = Some (mem.ObsString (ssha1.digest_String (mem.abs m d)))).
Proof.
  intros Hwf Hall.
  destruct (run_reads_spec growslice ops d m Hwf Hall) as [Ha [Hw [_ Hobs]]].
  split; [exact Ha|]. split; [exact Hw|]. split; [exact Hobs|].
  split; [intros i Hi; rewrite (Hobs i _ Hi); reflexivity|].
  split; intros i Hi; rewrite (Hobs i _ Hi); reflexivity.
Qed.

Lemma separate_reads_leave_digest_unchanged_witness :
  mem.wf mem.example_store mem.example_digest
  /\ Forall (mem.apart mem.example_store mem.example_digest)
       [mem.OpSum None; mem.OpHexString; mem.OpString;
        mem.OpSum (Some (mem.Header 1 0 3 3)); mem.OpSum None]
  /\ mem.abs (snd (mem.run_reads mem.example_growslice
                     [mem.OpSum None; mem.OpHexString; mem.OpString;
                      mem.OpSum (Some (mem.Header 1 0 3 3)); mem.OpSum None]
                     mem.example_digest mem.example_store)) mem.example_digest
     = mem.abs mem.example_store mem.example_digest.
Proof.
  assert (Hwf : mem.wf mem.example_store mem.example_digest).
  { split; [|split].
    - exists (bytes_of_string "abc" ++ replicate 5 x00).
      split; [reflexivity|simpl; lia].
    - exists (bytes_of_string "XY"). split; [reflexivity|simpl; lia].
    - simpl. lia. }
  assert (Hall : Forall (mem.apart mem.example_store mem.example_digest)
                   [mem.OpSum None; mem.OpHexString; mem.OpString;
                    mem.OpSum (Some (mem.Header 1 0 3 3)); mem.OpSum None]).
  { repeat (apply Forall_cons_2 || apply Forall_nil_2); simpl; try tauto.
    split; [|split; lia].
    exists (bytes_of_string "abc"). split; [reflexivity|simpl; lia]. }
  split; [exact Hwf|]. split; [exact Hall|].
  apply (separate_reads_leave_digest_unchanged mem.example_growslice
           [mem.OpSum None; mem.OpHexString; mem.OpString;
            mem.OpSum (Some (mem.Header 1 0 3 3)); mem.OpSum None]
           mem.example_digest mem.example_store Hwf Hall).
Defined.

(** The example state: the digest accumulates in array 3, of eight bytes. *)
Example example_state_is :
  mem.example_digest = mem.Digest (Some (mem.Header 3 0 3 8)) (Some (mem.Header 0 0 2 2))
  /\ mem.example_store
     = [bytes_of_string "XY"; bytes_of_string "abc"; [];
        bytes_of_string "abc" ++ replicate 5 x00]
  /\ mem.reachable mem.example_growslice mem.example_store mem.example_digest.
Proof.
  split; [reflexivity|]. split; [reflexivity|].
  apply (mem.reach_Write mem.example_growslice
           [bytes_of_string "XY"; bytes_of_string "abc"; []]
           (mem.Digest (Some (mem.Header 2 0 0 0)) (Some (mem.Header 0 0 2 2)))
           (Some (mem.Header 1 0 3 3)) _ (3, None));
    [|reflexivity].
  apply (mem.reach_NewWithSalt mem.example_growslice (Some (mem.Header 0 0 2 2))
           [bytes_of_string "XY"; bytes_of_string "abc"]);
    [|reflexivity].
  exists (bytes_of_string "XY"). split; [reflexivity|simpl; lia].
Qed.

(** [Sum] does write to the array of the accumulated slice when the salt
    fits its spare capacity, here behind the three accumulated bytes; the
    elements of the slice are the same before and after. *)
Example Sum_uses_spare_capacity :
  let m' := snd (mem.digest_Sum mem.example_growslice mem.example_digest None
                   mem.example_store) in
  m' !! 3%nat = Some (bytes_of_string "abcXY" ++ replicate 3 x00)
  /\ mem.example_store !! 3%nat = Some (bytes_of_string "abc" ++ replicate 5 x00)
  /\ mem.contents m' (mem.internal mem.example_digest) = bytes_of_string "abc"
  /\ mem.contents m' (mem.salt mem.example_digest) = bytes_of_string "XY".
Proof. vm_compute. repeat split. Qed.

(** ** The store model refines the model by contents *)

Lemma slice_from_valid (m : mem.store) (s : mem.slice) (i : nat) :
  mem.valid m s -> (i <= mem.len s)%nat -> mem.valid m (mem.slice_from s i).
Proof.
  destruct s as [h|]; [|trivial]. intros [a [Ha [Hcap Hlen]]] Hi. simpl in Hi.
  exists a. cbn [mem.slice_from mem.array mem.offset mem.length_ mem.capacity].
  split; [exact Ha|]. split; lia.
Qed.

Lemma slice_from_contents (m : mem.store) (s : mem.slice) (i : nat) :
  mem.valid m s -> (i <= mem.len s)%nat ->
  mem.contents m (mem.slice_from s i) = drop i (mem.contents m s).
Proof.
  destruct s as [h|]; [|intros _ _; destruct i; reflexivity].
  intros [a [Ha [Hcap Hlen]]] Hi. simpl in Hi.
  rewrite (contents_Some m h a Ha). cbn [mem.slice_from].
  rewrite (contents_Some m (mem.Header (mem.array h) (mem.offset h + i)
             (mem.length_ h - i) (mem.capacity h - i)) a Ha).
  cbn [mem.offset mem.length_].
  rewrite (take_drop_commute a (mem.length_ h - i) (mem.offset h + i)).
  rewrite (take_drop_commute a (mem.length_ h) (mem.offset h)).
  rewrite drop_drop. do 2 f_equal. lia.
Qed.

Lemma rand_Read_length (b : list byte) (r : rand.Reader) :
  length (fst (fst (rand.Read b r))) = length b.
Proof.
  unfold rand.Read. destruct (Nat.leb_spec (length b) (length r)) as [Hle|Hlt]; simpl.
  - apply length_take_le. exact Hle.
  - rewrite length_app, length_drop. lia.
Qed.

(** [rand.Read] writes what the source delivers into the slice, and
    nowhere else. *)
Lemma mem_rand_Read_spec (b : mem.slice) (r : rand.Reader) (m : mem.store) :
  mem.valid m b ->
  let '(err, r', m') := mem.rand_Read b r m in
  (mem.contents m' b, err, r') = rand.Read (mem.contents m b) r
  /\ mem.extends m m'
  /\ (forall u, mem.valid m u -> mem.separate b u ->
                mem.contents m' u = mem.contents m u).
Proof.
  intros Hb. unfold mem.rand_Read.
  pose proof (rand_Read_length (mem.contents m b) r) as Hl.
  destruct (rand.Read (mem.contents m b) r) as [[bs err] r']. simpl in Hl.
  rewrite (contents_length m b Hb) in Hl.
  destruct b as [h|].
  - destruct Hb as [a [Ha [Hcap Hlen]]]. simpl in Hl.
    set (a' := mem.copy a (mem.offset h) bs).
    assert (Ha' : alter (fun a => mem.copy a (mem.offset h) bs) (mem.array h) m
                  !! mem.array h = Some a').
    { rewrite list_lookup_alter_eq, Ha. reflexivity. }
    split; [|split].
    + rewrite (contents_Some _ h a' Ha'). unfold a'.
      pose proof (copy_through a (mem.offset h) 0 bs) as Hc.
      rewrite Nat.add_0_r in Hc. simpl in Hc. rewrite Hl in Hc.
      rewrite Hc by lia. reflexivity.
    + intros i c Hc. destruct (decide (i = mem.array h)) as [->|Hne].
      * exists a'. split; [exact Ha'|]. unfold a'.
        rewrite copy_length by lia. congruence.
      * exists c. split; [|reflexivity].
        rewrite list_lookup_alter_ne by congruence. exact Hc.
    + intros [k|] Hk Hsep; [|reflexivity]. simpl in Hsep.
      unfold mem.contents. rewrite list_lookup_alter_ne by exact Hsep. reflexivity.
  - simpl in Hl. destruct bs; [|discriminate Hl].
    split; [reflexivity|]. split; [apply extends_refl|reflexivity].
Qed.

(** *** The constructors *)

Lemma mem_NewWithSalt_spec (salt : mem.slice) (m : mem.store) :
  mem.valid m salt ->
  let '(res, m') := mem.NewWithSalt salt m in
  mem.extends m m'
  /\ (forall u, mem.valid m u -> mem.contents m' u = mem.contents m u)
  /\ match res with
     | Ok d =>
         ssha1.NewWithSalt (mem.contents m salt) = Ok (mem.abs m' d)
         /\ mem.wf m' d /\ mem.salt d = salt
         /\ (forall u, mem.valid m u -> mem.separate (mem.internal d) u)
     | Err e => ssha1.NewWithSalt (mem.contents m salt) = Err e
     end.
Proof.
  intros Hsalt. unfold mem.NewWithSalt, ssha1.NewWithSalt, ssha1.len.
  rewrite (contents_length m salt Hsalt).
  destruct (Z.of_nat (mem.len salt) <? ssha1.MinSaltBytes).
  - split; [apply extends_refl|]. split; [reflexivity|reflexivity].
  - pose proof (digest_Reset_spec mem.new_digest m I) as H.
    destruct (mem.digest_Reset mem.new_digest m) as [d1 m1].
    destruct H as [Ha [[Hv1 _] [He [_ Hf]]]].
    split; [exact He|]. split; [intros u Hu; apply (Hf u Hu)|].
    unfold mem.abs in *. cbn [mem.internal mem.salt] in *.
    injection Ha as Hi _.
    split; [rewrite Hi, (proj1 (Hf _ Hsalt)); reflexivity|].
    split; [|split; [reflexivity|intros u Hu; apply (Hf u Hu)]].
    split; [exact Hv1|]. split; [apply (valid_extends m m1 _ He Hsalt)|].
    apply (Hf _ Hsalt).
Qed.

(** The steps [New] and [NewForSaltSize] share: a new digest, a salt of [n]
    zero bytes, and a read of the random source into it. *)
Lemma random_salt_spec (n : nat) (r : rand.Reader) (m : mem.store) :
  let '(d1, m1) := mem.digest_Reset mem.new_digest m in
  let '(s, m2) := mem.make n m1 in
  let '(err, r', m3) := mem.rand_Read s r m2 in
  (mem.contents m3 s, err, r') = rand.Read (replicate n x00) r
  /\ mem.contents m3 (mem.internal d1) = []
  /\ mem.wf m3 (mem.Digest (mem.internal d1) s)
  /\ mem.extends m m3
  /\ (forall u, mem.valid m u -> mem.contents m3 u = mem.contents m u).
Proof.
  pose proof (digest_Reset_spec mem.new_digest m I) as H1.
  destruct (mem.digest_Reset mem.new_digest m) as [d1 m1].
  destruct H1 as [Ha1 [[Hv1 _] [He1 [_ Hf1]]]].
  unfold mem.abs in Ha1. injection Ha1 as Hi1 _.
  unfold mem.make.
  pose proof (alloc_spec (replicate n x00) m1) as H2.
  destruct (mem.alloc (replicate n x00) m1) as [s m2].
  destruct H2 as [Hs [_ [Hc2 [Hv2 [He2 Hf2]]]]].
  assert (Hfresh : mem.separate s (mem.internal d1))
    by (rewrite Hs; apply (fresh_separate m1); [reflexivity|exact Hv1]).
  pose proof (mem_rand_Read_spec s r m2 Hv2) as H3.
  destruct (mem.rand_Read s r m2) as [[err r'] m3].
  destruct H3 as [Hr [He3 Hf3]].
  assert (Vi2 := valid_extends m1 m2 _ He2 Hv1).
  split; [rewrite Hr, Hc2; reflexivity|].
  split; [rewrite (Hf3 _ Vi2 Hfresh), (Hf2 _ Hv1); exact Hi1|].
  split.
  { split; [apply (valid_extends m2 m3 _ He3 Vi2)|].
    split; [apply (valid_extends m2 m3 _ He3 Hv2)|].
    apply separate_sym. exact Hfresh. }
  split; [exact (extends_trans _ _ _ He1 (extends_trans _ _ _ He2 He3))|].
  intros u Hu.
  assert (Vu1 := valid_extends m m1 _ He1 Hu).
  assert (Vu2 := valid_extends m1 m2 _ He2 Vu1).
  rewrite (Hf3 _ Vu2), (Hf2 _ Vu1); [apply (Hf1 u Hu)|].
  rewrite Hs. apply (fresh_separate m1); [reflexivity|exact Vu1].
Qed.

Lemma mem_New_spec (r : rand.Reader) (m : mem.store) :
  let '(res, r', m') := mem.New r m in
  mem.extends m m'
  /\ (forall u, mem.valid m u -> mem.contents m' u = mem.contents m u)
  /\ match res with
     | Ok d => ssha1.New r = (Ok (mem.abs m' d), r') /\ mem.wf m' d
     | Err e => ssha1.New r = (Err e, r')
     end.
Proof.
  unfold mem.New, ssha1.New.
  pose proof (random_salt_spec (Z.to_nat ssha1.DefaultNumSaltBytes) r m) as H.
  destruct (mem.digest_Reset mem.new_digest m) as [d1 m1].
  destruct (mem.make (Z.to_nat ssha1.DefaultNumSaltBytes) m1) as [s m2].
  cbn [mem.salt mem.internal].
  destruct (mem.rand_Read s r m2) as [[err r'] m3].
  destruct H as [Hr [Hi [Hw [He Hf]]]].
  unfold ssha1.make. rewrite <- Hr.
  destruct err as [e|]; (split; [exact He|]; split; [exact Hf|]);
    [reflexivity|].
  split; [|exact Hw]. unfold mem.abs. cbn [mem.salt mem.internal].
  rewrite Hi. reflexivity.
Qed.

Lemma mem_NewForSaltSize_spec (numSaltBytes : Z) (r : rand.Reader) (m : mem.store) :
  let '(res, r', m') := mem.NewForSaltSize numSaltBytes r m in
  mem.extends m m'
  /\ (forall u, mem.valid m u -> mem.contents m' u = mem.contents m u)
  /\ match res with
     | Ok d => ssha1.NewForSaltSize numSaltBytes r = (Ok (mem.abs m' d), r')
               /\ mem.wf m' d
     | Err e => ssha1.NewForSaltSize numSaltBytes r = (Err e, r')
     end.
Proof.
  unfold mem.NewForSaltSize, ssha1.NewForSaltSize.
  destruct (numSaltBytes <? ssha1.MinSaltBytes).
  { split; [apply extends_refl|]. split; reflexivity. }
  pose proof (random_salt_spec (Z.to_nat numSaltBytes) r m) as H.
  destruct (mem.digest_Reset mem.new_digest m) as [d1 m1].
  destruct (mem.make (Z.to_nat numSaltBytes) m1) as [s m2].
  cbn [mem.salt mem.internal].
  destruct (mem.rand_Read s r m2) as [[err r'] m3].
  destruct H as [Hr [Hi [Hw [He Hf]]]].
  unfold ssha1.make. rewrite <- Hr.
  destruct err as [e|]; (split; [exact He|]; split; [exact Hf|]);
    [reflexivity|].
  split; [|exact Hw]. unfold mem.abs. cbn [mem.salt mem.internal].
  rewrite Hi. reflexivity.
Qed.

(** *** [Sum] and [Validate] *)

Section package_functions.

Variable growslice : nat -> nat -> nat.

(** [d.Write(p)] then [d.Sum(nil)], as both functions do. *)
Lemma write_then_sum_spec (d : mem.digest) (p : mem.slice) (m : mem.store) :
  mem.wf m d ->
  let '(d', _, m1) := mem.digest_Write growslice d p m in
  let '(s, m2) := mem.digest_Sum growslice d' None m1 in
  mem.contents m2 s
  = ssha1.digest_Sum (fst (ssha1.digest_Write (mem.abs m d) (mem.contents m p))) []
  /\ mem.extends m m2
  /\ (forall u, mem.valid m u -> mem.separate (mem.internal d) u ->
                mem.contents m2 u = mem.contents m u).
Proof.
  intros Hwf.
  pose proof (digest_Write_spec growslice d p m Hwf) as H1.
  destruct (mem.digest_Write growslice d p m) as [[d' res] m1].
  destruct H1 as [Ha1 [Hw1 [He1 [_ Hf1]]]].
  pose proof (digest_Sum_nil_spec growslice d' m1 Hw1) as H2.
  destruct (mem.digest_Sum growslice d' None m1) as [s m2].
  destruct H2 as [Hc2 [_ [_ [_ [He2 Hf2]]]]].
  split; [rewrite Hc2, Ha1; reflexivity|].
  split; [exact (extends_trans _ _ _ He1 He2)|].
  intros u Hu Hsep. destruct (Hf1 u Hu Hsep) as [Hcu Hsu].
  rewrite (Hf2 u (valid_extends m m1 _ He1 Hu) Hsu). exact Hcu.
Qed.

(** [Validate] on slices returns what [ssha1.Validate] returns on their
    elements, although the salt it extracts shares the array of the
    combined digest. *)
Lemma mem_Validate_refines (ssha1Hash sample : mem.slice) (m : mem.store) :
  mem.valid m ssha1Hash -> mem.valid m sample ->
  fst (mem.Validate growslice ssha1Hash sample m)
  = ssha1.Validate (mem.contents m ssha1Hash) (mem.contents m sample).
Proof.
  intros Hh Hsample. unfold mem.Validate, ssha1.Validate, ssha1.len.
  rewrite (contents_length m ssha1Hash Hh).
  destruct (Z.ltb_spec (Z.of_nat (mem.len ssha1Hash)) (Z.of_nat sha1.Size))
    as [Hlt|Hge]; [reflexivity|].
  destruct (Z.eqb_spec (Z.of_nat (mem.len ssha1Hash) - Z.of_nat sha1.Size) 0)
    as [Heq|Hne]; [reflexivity|].
  set (k := Z.to_nat (Z.of_nat (mem.len ssha1Hash)
                      - (Z.of_nat (mem.len ssha1Hash) - Z.of_nat sha1.Size))).
  assert (Hk : (k <= mem.len ssha1Hash)%nat) by (unfold k; lia).
  assert (Hsalt := slice_from_valid m ssha1Hash k Hh Hk).
  rewrite <- (slice_from_contents m ssha1Hash k Hh Hk).
  pose proof (mem_NewWithSalt_spec (mem.slice_from ssha1Hash k) m Hsalt) as H1.
  destruct (mem.NewWithSalt (mem.slice_from ssha1Hash k) m) as [[d|e] m1].
  - destruct H1 as [He1 [Hf1 [Hnew [Hw1 [_ Hfresh]]]]]. rewrite Hnew.
    pose proof (write_then_sum_spec d sample m1 Hw1) as H2.
    destruct (mem.digest_Write growslice d sample m1) as [[d' res] m2].
    destruct (mem.digest_Sum growslice d' None m2) as [result m3].
    destruct H2 as [Hc [_ Hf]]. cbn [fst].
    rewrite Hc, (Hf1 _ Hsample).
    rewrite (Hf _ (valid_extends m m1 _ He1 Hh) (Hfresh _ Hh)), (Hf1 _ Hh).
    reflexivity.
  - destruct H1 as [_ [_ Hnew]]. rewrite Hnew. reflexivity.
Qed.

(** [Sum] on slices returns a slice holding what [ssha1.Sum] returns on
    their elements, with the same error and the same use of the random
    source. *)
Lemma mem_Sum_refines (data salt : mem.slice) (r : rand.Reader) (m : mem.store) :
  mem.valid m data -> mem.valid m salt ->
  let '((s, err), r', m') := mem.Sum growslice data salt r m in
  ((mem.contents m' s, err), r')
  = ssha1.Sum (mem.contents m data)
      (option_map (fun _ => mem.contents m salt) salt) r.
Proof.
  intros Hdata Hsalt. unfold mem.Sum, ssha1.Sum.
  destruct salt as [h|]; cbn [option_map].
  - pose proof (mem_NewWithSalt_spec (Some h) m Hsalt) as H1.
    destruct (mem.NewWithSalt (Some h) m) as [[d|e] m1].
    + destruct H1 as [He1 [Hf1 [Hnew [Hw1 _]]]]. rewrite Hnew.
      pose proof (write_then_sum_spec d data m1 Hw1) as H2.
      destruct (mem.digest_Write growslice d data m1) as [[d' res] m2].
      destruct (mem.digest_Sum growslice d' None m2) as [s m3].
      destruct H2 as [Hc _]. rewrite Hc, (Hf1 _ Hdata). reflexivity.
    + destruct H1 as [_ [_ Hnew]]. rewrite Hnew. reflexivity.
  - pose proof (mem_New_spec r m) as H1.
    destruct (mem.New r m) as [[[d|e] r1] m1].
    + destruct H1 as [He1 [Hf1 [Hnew Hw1]]]. rewrite Hnew.
      pose proof (write_then_sum_spec d data m1 Hw1) as H2.
      destruct (mem.digest_Write growslice d data m1) as [[d' res] m2].
      destruct (mem.digest_Sum growslice d' None m2) as [s m3].
      destruct H2 as [Hc _]. rewrite Hc, (Hf1 _ Hdata). reflexivity.
    + destruct H1 as [_ [_ Hnew]]. rewrite Hnew. reflexivity.
Qed.

End package_functions.

(** *** The invariant holds of every digest a program can hold *)

Lemma reachable_wf (growslice : nat -> nat -> nat) (m : mem.store) (d : mem.digest) :
  mem.reachable growslice m d -> mem.wf m d.
Proof.
  induction 1 as [r m d r' m' HN|salt m d m' Hsalt HN|n r m d r' m' HN
                 |m d p d' res m' _ IH HW|m d d' m' _ IH HR
                 |m d op o m' _ IH Hv HR].
  - pose proof (mem_New_spec r m) as S. rewrite HN in S. apply S.
  - pose proof (mem_NewWithSalt_spec salt m Hsalt) as S. rewrite HN in S. apply S.
  - pose proof (mem_NewForSaltSize_spec n r m) as S. rewrite HN in S. apply S.
  - pose proof (digest_Write_spec growslice d p m IH) as S. rewrite HW in S. apply S.
  - pose proof (digest_Reset_spec d m (proj1 (proj2 IH))) as S. rewrite HR in S.
    apply S.
  - pose proof (run_read_wf growslice op d m IH Hv) as S. rewrite HR in S. apply S.
Qed.

(** *** The slice [Sum(nil)] returns is in an array of its own *)

Lemma extends_length (m m' : mem.store) : mem.extends m m' -> (length m <= length m')%nat.
Proof.
  intros He. destruct (Nat.le_gt_cases (length m) (length m')) as [Hle|Hgt];
    [exact Hle|].
  destruct (lookup_lt_is_Some_2 m (length m')) as [a Ha]; [lia|].
  destruct (He _ _ Ha) as [a' [Ha' _]]. apply lookup_lt_Some in Ha'. lia.
Qed.

Lemma digest_Sum_nil_fresh (growslice : nat -> nat -> nat)
    (d : mem.digest) (m : mem.store) :
  mem.wf m d ->
  exists h, fst (mem.digest_Sum growslice d None m) = Some h
            /\ (length m <= mem.array h)%nat
            /\ forall u, mem.valid m u -> mem.separate (Some h) u.
Proof.
  intros [Hi [Hs Hsep]]. unfold mem.digest_Sum.
  pose proof (append_spec growslice (mem.internal d) (mem.salt d) m Hi) as H1.
  destruct (mem.append growslice (mem.internal d) (mem.salt d) m) as [tmp m1].
  destruct H1 as [_ [_ [He1 _]]].
  pose proof (alloc_spec (sha1.Sum (mem.contents m1 tmp)) m1) as H2.
  destruct (mem.alloc (sha1.Sum (mem.contents m1 tmp)) m1) as [sum m2].
  destruct H2 as [_ [_ [Hc2 [Hv2 [He2 _]]]]].
  pose proof (append_spec growslice sum (mem.salt d) m2 Hv2) as H3.
  destruct (mem.append growslice sum (mem.salt d) m2) as [tmp2 m3].
  destruct H3 as [Hc3 [_ [He3 _]]].
  assert (Hlen : (0 < length (mem.contents m3 tmp2))%nat).
  { rewrite Hc3, Hc2, length_app, sha1_Sum_length. unfold sha1.Size. lia. }
  unfold mem.append. cbn [mem.len mem.cap].
  destruct (Nat.leb_spec (0 + length (mem.contents m3 tmp2)) 0) as [Hle|_]; [lia|].
  cbn [fst]. eexists. split; [reflexivity|]. cbn [mem.array].
  pose proof (extends_length _ _ He1). pose proof (extends_length _ _ He2).
  pose proof (extends_length _ _ He3).
  split; [lia|].
  intros [k|] Hk; [|exact I]. simpl. apply valid_in_store in Hk. lia.
Qed.

(** * Further properties of the package *)

(** ** [Sum] and [Validate] on contents *)

(** X1. Round trip with a generated salt: when the random source delivers
    20 bytes, [Sum(p, nil)] returns 40 bytes and no error, the last 20 of
    them are the bytes read, the source has moved on by exactly 20 bytes,
    and [Validate] of the result against [p] returns [(true, nil)]. *)
Theorem generated_salt_roundtrip (p : list byte) (r : rand.Reader) :
  (20 <= length r)%nat ->
  exists h, ssha1.Sum p None r = ((h, None), drop 20 r)
            /\ length h = 40%nat
            /\ drop 20 h = take 20 r
            /\ ssha1.Validate h p = (true, None).
Proof.
  intros Hr.
  assert (Hs : length (take 20 r) = 20%nat) by (apply length_take_le; exact Hr).
  exists (sha1.Sum (p ++ take 20 r) ++ take 20 r).
  split; [unfold ssha1.Sum; rewrite New_ok by exact Hr; reflexivity|].
  split; [rewrite length_app, sha1_Sum_length, Hs; reflexivity|].
  split; [apply drop_sha1_app|].
  rewrite Validate_of_Sum by lia. rewrite bytes_Equal_refl. reflexivity.
Qed.

Lemma generated_salt_roundtrip_witness :
  (20 <= length testdata.validate_hash_3)%nat
  /\ exists h,
      ssha1.Sum testdata.sum_plaintext_2 None testdata.validate_hash_3
      = ((h, None), drop 20 testdata.validate_hash_3)
      /\ length h = 40%nat
      /\ drop 20 h = take 20 testdata.validate_hash_3
      /\ ssha1.Validate h testdata.sum_plaintext_2 = (true, None).
Proof.
  split; [vm_compute; lia|].
  apply (generated_salt_roundtrip testdata.sum_plaintext_2 testdata.validate_hash_3).
  vm_compute; lia.
Defined.

(** X2. [Validate] accepts exactly what [Sum] produces: it returns
    [(true, nil)] on [c] and [p] if and only if [c] is the combined digest
    [Sum(p, s)] for some salt [s] of at least one byte. *)
Theorem Validate_accepts_exactly_Sum (c p : list byte) (r : rand.Reader) :
  ssha1.Validate c p = (true, None)
  <-> exists s, (1 <= length s)%nat /\ fst (ssha1.Sum p (Some s) r) = (c, None).
Proof.
  split.
  - intros HV. destruct (Nat.lt_trichotomy (length c) 20) as [Hlt|[Heq|Hgt]].
    + rewrite (Validate_short c p Hlt) in HV. discriminate HV.
    + rewrite (Validate_no_salt c p Heq) in HV. discriminate HV.
    + rewrite (Validate_long c p) in HV by lia.
      apply (f_equal fst) in HV. cbn [fst] in HV. apply bytes_Equal_true in HV.
      exists (drop 20 c).
      assert (Hs : (1 <= length (drop 20 c))%nat) by (rewrite length_drop; lia).
      split; [exact Hs|]. rewrite Sum_with_salt by exact Hs.
      cbn [fst]. f_equal. symmetry. exact HV.
  - intros [s [Hs HS]]. rewrite Sum_with_salt in HS by exact Hs.
    cbn [fst] in HS. apply (f_equal fst) in HS. cbn [fst] in HS. subst c.
    rewrite Validate_of_Sum by exact Hs. rewrite bytes_Equal_refl. reflexivity.
Qed.

(** X3. From 21 bytes on, comparing the whole combined value decides the
    same as comparing its first 20 bytes with the SHA-1 checksum of the
    sample and the extracted salt: the salt [Validate] recomputes with is
    the one it took from the input. *)
Theorem Validate_compares_prefix (c sample : list byte) :
  (21 <= length c)%nat ->
  ssha1.Validate c sample
  = (bytes.Equal (take 20 c) (sha1.Sum (sample ++ drop 20 c)), None).
Proof.
  intros H. rewrite (Validate_long c sample H).
  rewrite <- (take_drop 20 c) at 1. rewrite bytes_Equal_app_tail. reflexivity.
Qed.

Lemma Validate_compares_prefix_witness :
  (21 <= length testdata.validate_hash_4)%nat
  /\ ssha1.Validate testdata.validate_hash_4 testdata.validate_sample_4
     = (bytes.Equal (take 20 testdata.validate_hash_4)
          (sha1.Sum (testdata.validate_sample_4 ++ drop 20 testdata.validate_hash_4)),
        None).
Proof.
  split; [vm_compute; lia|].
  apply (Validate_compares_prefix testdata.validate_hash_4 testdata.validate_sample_4).
  vm_compute; lia.
Defined.

(** X4. The salt can be read back from a combined digest, so two calls of
    [Sum] that return the same bytes were given the same salt (and their
    salted inputs have the same SHA-1 checksum). *)
Theorem Sum_determines_salt (p1 p2 s1 s2 : list byte) (r1 r2 : rand.Reader) :
  (1 <= length s1)%nat -> (1 <= length s2)%nat ->
  fst (fst (ssha1.Sum p1 (Some s1) r1)) = fst (fst (ssha1.Sum p2 (Some s2) r2)) ->
  s1 = s2
  /\ sha1.Sum (p1 ++ s1) = sha1.Sum (p2 ++ s2)
  /\ drop 20 (fst (fst (ssha1.Sum p1 (Some s1) r1))) = s1.
Proof.
  intros H1 H2. rewrite !Sum_with_salt by assumption. cbn [fst]. intros HE.
  assert (Hs : s1 = s2).
  { rewrite <- (drop_sha1_app (p1 ++ s1) s1), <- (drop_sha1_app (p2 ++ s2) s2).
    rewrite HE. reflexivity. }
  split; [exact Hs|]. split; [|apply drop_sha1_app].
  subst s2. exact (app_inv_tail s1 _ _ HE).
Qed.

Lemma Sum_determines_salt_witness :
  (1 <= length testdata.sum_salt_1)%nat
  /\ drop 20 (fst (fst (ssha1.Sum testdata.sum_plaintext_1
                          (Some testdata.sum_salt_1) [])))
     = testdata.sum_salt_1.
Proof.
  split; [vm_compute; lia|].
  apply (Sum_determines_salt testdata.sum_plaintext_1 testdata.sum_plaintext_1
           testdata.sum_salt_1 testdata.sum_salt_1 [] []);
    [vm_compute; lia|vm_compute; lia|reflexivity].
Defined.

(** ** Sizes *)

(** X5. What [Size] returns by constructor: 40 after [New], [20 + len(s)]
    after [NewWithSalt(s)] and [20 + n] after [NewForSaltSize(n)], each time
    the number of bytes [Sum(nil)] returns; [Write] and [Reset] do not
    change it, and [BlockSize] is 64. *)
Theorem sizes_by_constructor :
  (forall r d r', ssha1.New r = (Ok d, r') ->
     ssha1.digest_Size d = 40
     /\ Z.of_nat (length (ssha1.digest_Sum d [])) = 40)
  /\ (forall s d, ssha1.NewWithSalt s = Ok d ->
        ssha1.digest_Size d = 20 + Z.of_nat (length s)
        /\ 21 <= ssha1.digest_Size d
        /\ Z.of_nat (length (ssha1.digest_Sum d [])) = ssha1.digest_Size d)
  /\ (forall n r d r', ssha1.NewForSaltSize n r = (Ok d, r') ->
        ssha1.digest_Size d = 20 + n
        /\ Z.of_nat (length (ssha1.digest_Sum d [])) = 20 + n)
  /\ (forall d p,
        ssha1.digest_Size (fst (ssha1.digest_Write d p)) = ssha1.digest_Size d
        /\ ssha1.digest_Size (ssha1.digest_Reset d) = ssha1.digest_Size d
        /\ ssha1.digest_BlockSize d = 64).
Proof.
  assert (Hsum : forall d, Z.of_nat (length (ssha1.digest_Sum d []))
                           = ssha1.digest_Size d).
  { intros d. rewrite digest_Sum_eq, app_nil_l, length_app, sha1_Sum_length.
    unfold ssha1.digest_Size, ssha1.len, sha1.Size. lia. }
  split.
  { intros r d r' HN. rewrite Hsum.
    destruct (Nat.le_gt_cases 20 (length r)) as [Hr|Hr].
    - rewrite (New_ok r Hr) in HN. injection HN as <- _.
      unfold ssha1.digest_Size, ssha1.len. cbn [ssha1.salt].
      rewrite length_take_le by exact Hr. split; reflexivity.
    - destruct (New_rand_error r Hr) as [e [HE _]]. rewrite HE in HN.
      discriminate HN. }
  split.
  { intros s d HN. rewrite Hsum.
    unfold ssha1.NewWithSalt, ssha1.len, ssha1.MinSaltBytes in HN.
    destruct (Z.ltb_spec (Z.of_nat (length s)) 1) as [Hlt|Hge]; [discriminate HN|].
    injection HN as <-. unfold ssha1.digest_Size, ssha1.len, sha1.Size.
    cbn [ssha1.salt]. lia. }
  split.
  { intros n r d r' HN. rewrite Hsum.
    assert (Hn : 1 <= n).
    { unfold ssha1.NewForSaltSize, ssha1.MinSaltBytes in HN.
      destruct (Z.ltb_spec n 1) as [Hlt|Hge]; [discriminate HN|exact Hge]. }
    destruct (Nat.le_gt_cases (Z.to_nat n) (length r)) as [Hr|Hr].
    - rewrite (NewForSaltSize_ok n r Hn Hr) in HN. injection HN as <- _.
      unfold ssha1.digest_Size, ssha1.len, sha1.Size. cbn [ssha1.salt].
      rewrite length_take_le by exact Hr. lia.
    - destruct (NewForSaltSize_rand_error n r Hn Hr) as [e [HE _]].
      rewrite HE in HN. discriminate HN. }
  intros d p. split; [reflexivity|]. split; reflexivity.
Qed.

Lemma sizes_by_constructor_witness :
  ssha1.New testdata.validate_hash_3
  = (Ok (ssha1.Digest [] (take 20 testdata.validate_hash_3)),
     drop 20 testdata.validate_hash_3)
  /\ ssha1.digest_Size (ssha1.Digest [] (take 20 testdata.validate_hash_3)) = 40.
Proof.
  split; [reflexivity|].
  apply (proj1 sizes_by_constructor testdata.validate_hash_3
           (ssha1.Digest [] (take 20 testdata.validate_hash_3))
           (drop 20 testdata.validate_hash_3)).
  reflexivity.
Defined.

(** X6. The lengths of the two text forms follow from [Size]: [HexString]
    has two characters for each of the [Size] bytes, and [String] has the
    six characters of its prefix and four for every three bytes, the last
    group filled up. *)
Theorem text_lengths (d : ssha1.digest) :
  Z.of_nat (String.length (ssha1.digest_HexString d)) = 2 * ssha1.digest_Size d
  /\ Z.of_nat (String.length (ssha1.digest_String d))
     = 6 + 4 * ((ssha1.digest_Size d + 2) / 3).
Proof.
  assert (Hsum : Z.of_nat (length (ssha1.digest_Sum d [])) = ssha1.digest_Size d).
  { rewrite digest_Sum_eq, app_nil_l, length_app, sha1_Sum_length.
    unfold ssha1.digest_Size, ssha1.len, sha1.Size. lia. }
  unfold ssha1.digest_HexString, ssha1.digest_String. cbv zeta.
  rewrite Sprintf_outputFmt, hex_length. cbn [String.append String.length].
  rewrite base64_length. rewrite <- Hsum.
  split; [lia|].
  rewrite !Nat2Z.inj_succ, Nat2Z.inj_mul, Nat2Z.inj_div, Nat2Z.inj_add. simpl Z.of_nat. lia.
Qed.

(** ** The digest on a store *)

Lemma builtin_copy_spec (dst : mem.slice) (src : list byte) (m : mem.store) :
  mem.valid m dst -> length src = mem.len dst ->
  let '(n, m') := mem.builtin_copy dst src m in
  n = length src
  /\ mem.contents m' dst = src
  /\ mem.extends m m'
  /\ (forall u, mem.valid m u -> mem.separate dst u ->
                mem.contents m' u = mem.contents m u).
Proof.
  intros Hd Hl. unfold mem.builtin_copy. rewrite <- Hl, Nat.min_id.
  rewrite take_ge by lia.
  destruct dst as [h|].
  - destruct Hd as [a [Ha [Hcap Hlen]]]. simpl in Hl.
    set (a' := mem.copy a (mem.offset h) src).
    assert (Ha' : alter (fun a => mem.copy a (mem.offset h) src) (mem.array h) m
                  !! mem.array h = Some a').
    { rewrite list_lookup_alter_eq, Ha. reflexivity. }
    split; [reflexivity|]. split; [|split].
    + rewrite (contents_Some _ h a' Ha'). unfold a'.
      pose proof (copy_through a (mem.offset h) 0 src) as Hc.
      rewrite Nat.add_0_r in Hc. simpl in Hc. rewrite <- Hl.
      apply Hc. lia.
    + intros i c Hc. destruct (decide (i = mem.array h)) as [->|Hne].
      * exists a'. split; [exact Ha'|]. unfold a'.
        rewrite copy_length by lia. congruence.
      * exists c. split; [|reflexivity].
        rewrite list_lookup_alter_ne by congruence. exact Hc.
    + intros [k|] Hk Hsep; [|reflexivity]. simpl in Hsep.
      unfold mem.contents. rewrite list_lookup_alter_ne by exact Hsep. reflexivity.
  - simpl in Hl. destruct src; [|discriminate Hl].
    split; [reflexivity|]. split; [reflexivity|].
    split; [apply extends_refl|reflexivity].
Qed.

Lemma reachable_salt_len (growslice : nat -> nat -> nat)
    (m : mem.store) (d : mem.digest) :
  mem.reachable growslice m d -> (1 <= mem.len (mem.salt d))%nat.
Proof.
  induction 1 as [r m d r' m' HN|salt m d m' Hsalt HN|n r m d r' m' HN
                 |m d p d' res m' H IH HW|m d d' m' H IH HR
                 |m d op o m' H IH Hv HR].
  - unfold mem.New, mem.digest_Reset, mem.make, mem.alloc in HN.
    cbn [mem.salt mem.internal] in HN.
    destruct (mem.rand_Read _ r _) as [[err r1] m1].
    destruct err; [discriminate HN|]. injection HN as <- _ _.
    cbn [mem.salt mem.len mem.length_]. vm_compute. lia.
  - unfold mem.NewWithSalt, ssha1.MinSaltBytes in HN.
    destruct (Z.ltb_spec (Z.of_nat (mem.len salt)) 1) as [Hlt|Hge];
      [discriminate HN|].
    unfold mem.digest_Reset, mem.make, mem.alloc in HN. cbn [mem.internal] in HN.
    injection HN as <- _. cbn [mem.salt]. lia.
  - unfold mem.NewForSaltSize, ssha1.MinSaltBytes in HN.
    destruct (Z.ltb_spec n 1) as [Hlt|Hge]; [discriminate HN|].
    unfold mem.digest_Reset, mem.make, mem.alloc in HN.
    cbn [mem.salt mem.internal] in HN.
    destruct (mem.rand_Read _ r _) as [[err r1] m1].
    destruct err; [discriminate HN|]. injection HN as <- _ _.
    cbn [mem.salt mem.len mem.length_]. rewrite length_replicate. lia.
  - pose proof (digest_Write_spec growslice d p m (reachable_wf _ _ _ H)) as S.
    rewrite HW in S. destruct S as [_ [_ [_ [Hs _]]]]. rewrite Hs. exact IH.
  - pose proof (digest_Reset_spec d m (proj1 (proj2 (reachable_wf _ _ _ H)))) as S.
    rewrite HR in S. destruct S as [_ [_ [_ [Hs _]]]]. rewrite Hs. exact IH.
  - exact IH.
Qed.

(** X7. Every digest a program can hold has a salt of at least one byte:
    the constructors see to it and no method changes the salt's length,
    not [Write], not [Reset], not [HexString] or [String], and not
    [Sum(in)] for any slice [in], one in the array of the salt included
    (it overwrites the salt's bytes, not its length).  So [Size] is at
    least 21, and it is the number of bytes [Sum(nil)] returns. *)
Theorem every_digest_has_a_salt (growslice : nat -> nat -> nat)
    (m : mem.store) (d : mem.digest) :
  mem.reachable growslice m d ->
  (1 <= length (mem.contents m (mem.salt d)))%nat
  /\ 21 <= mem.digest_Size d
  /\ mem.digest_Size d
     = Z.of_nat (length (mem.contents (snd (mem.digest_Sum growslice d None m))
                                      (fst (mem.digest_Sum growslice d None m)))).
Proof.
  intros Hr. pose proof (reachable_salt_len growslice m d Hr) as Hlen.
  pose proof (reachable_wf growslice m d Hr) as Hwf.
  pose proof (contents_length m (mem.salt d) (proj1 (proj2 Hwf))) as Hc.
  split; [lia|]. unfold mem.digest_Size, sha1.Size. split; [lia|].
  pose proof (digest_Sum_nil_spec growslice d m Hwf) as S.
  destruct (mem.digest_Sum growslice d None m) as [s m']. cbn [fst snd].
  destruct S as [-> _]. rewrite digest_Sum_eq, app_nil_l, length_app, sha1_Sum_length.
  unfold mem.abs. cbn [ssha1.salt]. rewrite Hc. unfold sha1.Size. lia.
Qed.

Lemma every_digest_has_a_salt_witness :
  mem.reachable mem.example_growslice
    (snd (mem.run_read mem.example_growslice (mem.OpSum memdata.alias_in)
            memdata.alias_digest memdata.alias_store1))
    memdata.alias_digest
  /\ (1 <= length (mem.contents
                     (snd (mem.run_read mem.example_growslice
                             (mem.OpSum memdata.alias_in)
                             memdata.alias_digest memdata.alias_store1))
                     (mem.salt memdata.alias_digest)))%nat
  /\ 21 <= mem.digest_Size memdata.alias_digest.
Proof.
  assert (Hr : mem.reachable mem.example_growslice
                 (snd (mem.run_read mem.example_growslice
                         (mem.OpSum memdata.alias_in)
                         memdata.alias_digest memdata.alias_store1))
                 memdata.alias_digest).
  { apply (mem.reach_read mem.example_growslice memdata.alias_store1
             memdata.alias_digest (mem.OpSum memdata.alias_in)
             (fst (mem.run_read mem.example_growslice
                     (mem.OpSum memdata.alias_in)
                     memdata.alias_digest memdata.alias_store1))).
    - apply (mem.reach_NewWithSalt mem.example_growslice memdata.alias_salt
               memdata.alias_store); [|reflexivity].
      exists (bytes_of_string "XY" ++ replicate 30 x00).
      split; [reflexivity|simpl; lia].
    - exists (bytes_of_string "XY" ++ replicate 30 x00).
      split; [reflexivity|simpl; lia].
    - apply surjective_pairing. }
  split; [exact Hr|].
  destruct (every_digest_has_a_salt mem.example_growslice _
              memdata.alias_digest Hr) as [H1 [H2 _]].
  split; [exact H1|exact H2].
Defined.

(** X8. [Write] never fails and takes all of [p]: it returns [len(p)] and a
    nil error, and two calls in a row accumulate what one call with the
    bytes of both would, whatever capacity [append] chose in between. *)
Theorem writes_concatenate (growslice : nat -> nat -> nat)
    (d : mem.digest) (p q : mem.slice) (m : mem.store) :
  mem.wf m d -> mem.valid m p -> mem.valid m q ->
  mem.separate (mem.internal d) q ->
  let '(d1, res1, m1) := mem.digest_Write growslice d p m in
  let '(d2, res2, m2) := mem.digest_Write growslice d1 q m1 in
  res1 = (Z.of_nat (length (mem.contents m p)), None)
  /\ res2 = (Z.of_nat (length (mem.contents m q)), None)
  /\ mem.abs m2 d2
     = fst (ssha1.digest_Write (mem.abs m d) (mem.contents m p ++ mem.contents m q))
  /\ mem.wf m2 d2.
Proof.
  intros Hwf Hp Hq Hsep.
  pose proof (digest_Write_spec growslice d p m Hwf) as S1.
  assert (R1 : snd (fst (mem.digest_Write growslice d p m))
               = (Z.of_nat (mem.len p), None)).
  { unfold mem.digest_Write. destruct (mem.append growslice (mem.internal d) p m).
    reflexivity. }
  destruct (mem.digest_Write growslice d p m) as [[d1 res1] m1].
  cbn [fst snd] in R1. destruct S1 as [Ha1 [Hw1 [He1 [_ Hf1]]]].
  pose proof (digest_Write_spec growslice d1 q m1 Hw1) as S2.
  assert (R2 : snd (fst (mem.digest_Write growslice d1 q m1))
               = (Z.of_nat (mem.len q), None)).
  { unfold mem.digest_Write. destruct (mem.append growslice (mem.internal d1) q m1).
    reflexivity. }
  destruct (mem.digest_Write growslice d1 q m1) as [[d2 res2] m2].
  cbn [fst snd] in R2. destruct S2 as [Ha2 [Hw2 _]].
  split; [rewrite R1, (contents_length m p Hp); reflexivity|].
  split; [rewrite R2, (contents_length m q Hq); reflexivity|].
  split; [|exact Hw2].
  rewrite Ha2, Ha1, (proj1 (Hf1 q Hq Hsep)).
  unfold ssha1.digest_Write. cbn [fst ssha1.internal ssha1.salt].
  rewrite app_assoc. reflexivity.
Qed.

Lemma writes_concatenate_witness :
  mem.wf mem.example_store mem.example_digest
  /\ let '(d1, res1, m1) :=
       mem.digest_Write mem.example_growslice mem.example_digest
         (Some (mem.Header 1 0 3 3)) mem.example_store in
     let '(d2, res2, m2) :=
       mem.digest_Write mem.example_growslice d1 (Some (mem.Header 0 0 2 2)) m1 in
     res1 = (Z.of_nat (length (mem.contents mem.example_store
                                 (Some (mem.Header 1 0 3 3)))), None)
     /\ res2 = (Z.of_nat (length (mem.contents mem.example_store
                                    (Some (mem.Header 0 0 2 2)))), None)
     /\ mem.abs m2 d2
        = fst (ssha1.digest_Write (mem.abs mem.example_store mem.example_digest)
                 (mem.contents mem.example_store (Some (mem.Header 1 0 3 3))
                  ++ mem.contents mem.example_store (Some (mem.Header 0 0 2 2))))
     /\ mem.wf m2 d2.
Proof.
  assert (Hwf : mem.wf mem.example_store mem.example_digest).
  { split; [|split].
    - exists (bytes_of_string "abc" ++ replicate 5 x00).
      split; [reflexivity|simpl; lia].
    - exists (bytes_of_string "XY"). split; [reflexivity|simpl; lia].
    - simpl. lia. }
  split; [exact Hwf|].
  apply (writes_concatenate mem.example_growslice mem.example_digest
           (Some (mem.Header 1 0 3 3)) (Some (mem.Header 0 0 2 2))
           mem.example_store Hwf).
  - exists (bytes_of_string "abc"). split; [reflexivity|simpl; lia].
  - exists (bytes_of_string "XY"). split; [reflexivity|simpl; lia].
  - simpl. lia.
Defined.

(** X9. [Sum(in)] appends to [in]: the slice it returns holds the elements
    of [in], then the 20 bytes of the checksum, then the salt, and the
    digest stands for the same bytes afterwards.  When [in] has room for
    [20 + len(salt)] more elements the result is written into the array of
    [in] itself, no new one. *)
Theorem Sum_appends_to_in (growslice : nat -> nat -> nat)
    (d : mem.digest) (in_ : mem.slice) (m : mem.store) :
  mem.wf m d -> mem.valid m in_ ->
  mem.separate in_ (mem.internal d) -> mem.separate in_ (mem.salt d) ->
  let r := fst (mem.digest_Sum growslice d in_ m) in
  let m' := snd (mem.digest_Sum growslice d in_ m) in
  mem.contents m' r
  = mem.contents m in_
    ++ sha1.Sum (mem.contents m (mem.internal d) ++ mem.contents m (mem.salt d))
    ++ mem.contents m (mem.salt d)
  /\ mem.abs m' d = mem.abs m d
  /\ (forall h, in_ = Some h ->
        (mem.length_ h + 20 + mem.len (mem.salt d) <= mem.capacity h)%nat ->
        r = Some (mem.Header (mem.array h) (mem.offset h)
                    (mem.length_ h + 20 + mem.len (mem.salt d)) (mem.capacity h))).
Proof.
  intros Hwf Hin Hin_i Hin_s r m'.
  pose proof (digest_Sum_spec growslice d in_ m Hwf Hin Hin_i Hin_s) as S.
  split; [|split].
  - unfold r, m'. destruct (mem.digest_Sum growslice d in_ m) as [r0 m0].
    cbn [fst snd]. destruct S as [-> _]. reflexivity.
  - unfold r, m'. destruct (mem.digest_Sum growslice d in_ m) as [r0 m0].
    cbn [fst snd]. apply S.
  - clear S. intros h -> Hroom. unfold r. clear r m'.
    destruct Hwf as [Hi [Hs Hsep]]. unfold mem.digest_Sum.
    pose proof (append_spec growslice (mem.internal d) (mem.salt d) m Hi) as H1.
    destruct (mem.append growslice (mem.internal d) (mem.salt d) m) as [tmp m1].
    destruct H1 as [_ [_ [He1 [_ [Hf1 _]]]]].
    pose proof (alloc_spec (sha1.Sum (mem.contents m1 tmp)) m1) as H2.
    destruct (mem.alloc (sha1.Sum (mem.contents m1 tmp)) m1) as [sum m2].
    destruct H2 as [Hsum [_ [Hc2 [Hv2 [He2 Hf2]]]]].
    pose proof (append_spec growslice sum (mem.salt d) m2 Hv2) as H3.
    destruct (mem.append growslice sum (mem.salt d) m2) as [tmp2 m3].
    destruct H3 as [Hc3 _].
    assert (Vs1 := valid_extends m m1 _ He1 Hs).
    assert (Hlen : length (mem.contents m3 tmp2) = (20 + mem.len (mem.salt d))%nat).
    { rewrite Hc3, Hc2, length_app, sha1_Sum_length, (Hf2 _ Vs1).
      rewrite (Hf1 _ Hs Hsep), (contents_length m _ Hs). reflexivity. }
    unfold mem.append. cbn [mem.len mem.cap fst]. rewrite Hlen.
    destruct (Nat.leb_spec (mem.length_ h + (20 + mem.len (mem.salt d)))
                (mem.capacity h)) as [_|Hgt]; [|lia].
    cbn [fst]. do 2 f_equal. lia.
Qed.

Lemma Sum_appends_to_in_witness :
  mem.wf mem.example_store mem.example_digest
  /\ mem.contents
       (snd (mem.digest_Sum mem.example_growslice mem.example_digest
               (Some (mem.Header 1 0 3 3)) mem.example_store))
       (fst (mem.digest_Sum mem.example_growslice mem.example_digest
               (Some (mem.Header 1 0 3 3)) mem.example_store))
     = mem.contents mem.example_store (Some (mem.Header 1 0 3 3))
       ++ sha1.Sum (mem.contents mem.example_store (mem.internal mem.example_digest)
                    ++ mem.contents mem.example_store (mem.salt mem.example_digest))
       ++ mem.contents mem.example_store (mem.salt mem.example_digest).
Proof.
  assert (Hwf : mem.wf mem.example_store mem.example_digest).
  { split; [|split].
    - exists (bytes_of_string "abc" ++ replicate 5 x00).
      split; [reflexivity|simpl; lia].
    - exists (bytes_of_string "XY"). split; [reflexivity|simpl; lia].
    - simpl. lia. }
  split; [exact Hwf|].
  apply (Sum_appends_to_in mem.example_growslice mem.example_digest
           (Some (mem.Header 1 0 3 3)) mem.example_store Hwf).
  - exists (bytes_of_string "abc"). split; [reflexivity|simpl; lia].
  - simpl. lia.
  - simpl. lia.
Defined.

(** A digest and an [in] that live in one array: [d.salt] is the first two
    bytes of an array of 32 and [in] is the empty slice of the whole
    array, as when the caller made [buf], passed [buf[:2]] as salt and
    calls [Sum(buf[:0])].  The separation that X9 asks for is needed: here
    [Sum] overwrites the salt. *)
Example Sum_into_the_salt_array :
  let m := [bytes_of_string "XY" ++ replicate 30 x00; []] in
  let d := mem.Digest (Some (mem.Header 1 0 0 0)) (Some (mem.Header 0 0 2 2)) in
  let m' := snd (mem.digest_Sum mem.example_growslice d
                   (Some (mem.Header 0 0 0 32)) m) in
  mem.wf m d
  /\ mem.contents m (mem.salt d) = bytes_of_string "XY"
  /\ mem.contents m' (mem.salt d) = take 2 (sha1.Sum (bytes_of_string "XY")).
Proof.
  cbv zeta. split; [|split; vm_compute; reflexivity].
  split; [|split].
  - exists []. split; [reflexivity|simpl; lia].
  - exists (bytes_of_string "XY" ++ replicate 30 x00).
    split; [reflexivity|simpl; lia].
  - simpl. lia.
Qed.

(** ** The package functions on a store *)

Section package_functions_frame.

Variable growslice : nat -> nat -> nat.

(** [d.Write(p)] then [d.Sum(nil)] on a digest whose accumulated slice is
    apart from every slice of [m0]: no slice of [m0] changes, and the
    result is in a new array. *)
Lemma write_then_sum_frame (d : mem.digest) (p : mem.slice) (m0 m : mem.store) :
  mem.wf m d -> mem.extends m0 m ->
  (forall u, mem.valid m0 u -> mem.separate (mem.internal d) u) ->
  let '(d', _, m1) := mem.digest_Write growslice d p m in
  let '(s, m2) := mem.digest_Sum growslice d' None m1 in
  (forall u, mem.valid m0 u -> mem.contents m2 u = mem.contents m u)
  /\ exists h, s = Some h /\ (length m0 <= mem.array h)%nat.
Proof.
  intros Hwf He0 Hfresh.
  pose proof (digest_Write_spec growslice d p m Hwf) as H1.
  destruct (mem.digest_Write growslice d p m) as [[d' res] m1].
  destruct H1 as [_ [Hw1 [He1 [_ Hf1]]]].
  pose proof (digest_Sum_nil_spec growslice d' m1 Hw1) as H2.
  pose proof (digest_Sum_nil_fresh growslice d' m1 Hw1) as H3.
  destruct (mem.digest_Sum growslice d' None m1) as [s m2].
  destruct H2 as [_ [_ [_ [_ [_ Hf2]]]]].
  destruct H3 as [h [Hh [Harr _]]]. cbn [fst] in Hh.
  split.
  - intros u Hu. assert (Vu := valid_extends m0 m _ He0 Hu).
    destruct (Hf1 u Vu (Hfresh u Hu)) as [Hcu Hsu].
    rewrite (Hf2 u (valid_extends m m1 _ He1 Vu) Hsu). exact Hcu.
  - exists h. split; [exact Hh|].
    pose proof (extends_length _ _ He0). pose proof (extends_length _ _ He1). lia.
Qed.

(** X10. [Validate] on slices returns what [ssha1.Validate] returns on
    their elements, also when the two arguments share an array, and it
    changes no element of any slice that existed before the call: its
    arguments are read only. *)
Theorem Validate_reads_only (ssha1Hash sample : mem.slice) (m : mem.store) :
  mem.valid m ssha1Hash -> mem.valid m sample ->
  fst (mem.Validate growslice ssha1Hash sample m)
  = ssha1.Validate (mem.contents m ssha1Hash) (mem.contents m sample)
  /\ forall u, mem.valid m u ->
       mem.contents (snd (mem.Validate growslice ssha1Hash sample m)) u
       = mem.contents m u.
Proof.
  intros Hh Hsample.
  split; [apply mem_Validate_refines; assumption|].
  unfold mem.Validate.
  destruct (Z.ltb_spec (Z.of_nat (mem.len ssha1Hash)) (Z.of_nat sha1.Size))
    as [Hlt|Hge]; [reflexivity|].
  destruct (Z.eqb_spec (Z.of_nat (mem.len ssha1Hash) - Z.of_nat sha1.Size) 0)
    as [Heq|Hne]; [reflexivity|].
  set (k := Z.to_nat (Z.of_nat (mem.len ssha1Hash)
                      - (Z.of_nat (mem.len ssha1Hash) - Z.of_nat sha1.Size))).
  assert (Hk : (k <= mem.len ssha1Hash)%nat) by (unfold k; lia).
  assert (Hsalt := slice_from_valid m ssha1Hash k Hh Hk).
  pose proof (mem_NewWithSalt_spec (mem.slice_from ssha1Hash k) m Hsalt) as H1.
  destruct (mem.NewWithSalt (mem.slice_from ssha1Hash k) m) as [[d|e] m1].
  - destruct H1 as [He1 [Hf1 [_ [Hw1 [_ Hfresh]]]]].
    pose proof (write_then_sum_frame d sample m m1 Hw1 He1 Hfresh) as H2.
    destruct (mem.digest_Write growslice d sample m1) as [[d' res] m2].
    destruct (mem.digest_Sum growslice d' None m2) as [result m3].
    destruct H2 as [Hf _]. cbn [snd]. intros u Hu.
    rewrite (Hf u Hu). apply Hf1. exact Hu.
  - destruct H1 as [_ [Hf1 _]]. cbn [snd]. exact Hf1.
Qed.

(** X11. [Sum] on slices returns a slice holding what [ssha1.Sum] returns on
    their elements; it changes no element of any slice that existed before
    the call, and on success its result is in a new array, shared with
    neither argument. *)
Theorem Sum_reads_only (data salt : mem.slice) (r : rand.Reader) (m : mem.store) :
  mem.valid m data -> mem.valid m salt ->
  let s := fst (fst (fst (mem.Sum growslice data salt r m))) in
  let err := snd (fst (fst (mem.Sum growslice data salt r m))) in
  let r' := snd (fst (mem.Sum growslice data salt r m)) in
  let m' := snd (mem.Sum growslice data salt r m) in
  ((mem.contents m' s, err), r')
  = ssha1.Sum (mem.contents m data)
      (option_map (fun _ => mem.contents m salt) salt) r
  /\ (forall u, mem.valid m u -> mem.contents m' u = mem.contents m u)
  /\ (err = None -> exists h, s = Some h /\ (length m <= mem.array h)%nat).
Proof.
  intros Hdata Hsalt. cbv zeta.
  pose proof (mem_Sum_refines growslice data salt r m Hdata Hsalt) as HR.
  split.
  { destruct (mem.Sum growslice data salt r m) as [[[s err] r'] m'].
    exact HR. }
  clear HR. unfold mem.Sum. destruct salt as [h|].
  - pose proof (mem_NewWithSalt_spec (Some h) m Hsalt) as H1.
    destruct (mem.NewWithSalt (Some h) m) as [[d|e] m1].
    + destruct H1 as [He1 [Hf1 [_ [Hw1 [_ Hfresh]]]]].
      pose proof (write_then_sum_frame d data m m1 Hw1 He1 Hfresh) as H2.
      destruct (mem.digest_Write growslice d data m1) as [[d' res] m2].
      destruct (mem.digest_Sum growslice d' None m2) as [s m3].
      destruct H2 as [Hf Hnew]. cbn [fst snd].
      split; [intros u Hu; rewrite (Hf u Hu); apply Hf1; exact Hu|].
      intros _. exact Hnew.
    + destruct H1 as [_ [Hf1 _]]. cbn [fst snd].
      split; [exact Hf1|]. intros HE. discriminate HE.
  - pose proof (mem_New_spec r m) as H1.
    assert (Hfresh : forall d r1 m1,
               mem.New r m = (Ok d, r1, m1) ->
               forall u, mem.valid m u -> mem.separate (mem.internal d) u).
    { intros d r1 m1 HN u Hu.
      unfold mem.New, mem.digest_Reset, mem.make, mem.alloc in HN.
      cbn [mem.salt mem.internal] in HN.
      destruct (mem.rand_Read _ r _) as [[err r2] m2].
      destruct err; [discriminate HN|]. injection HN as <- _ _.
      cbn [mem.internal]. apply (fresh_separate m); [reflexivity|exact Hu]. }
    destruct (mem.New r m) as [[[d|e] r1] m1].
    + destruct H1 as [He1 [Hf1 [_ Hw1]]].
      pose proof (write_then_sum_frame d data m m1 Hw1 He1
                    (Hfresh d r1 m1 eq_refl)) as H2.
      destruct (mem.digest_Write growslice d data m1) as [[d' res] m2].
      destruct (mem.digest_Sum growslice d' None m2) as [s m3].
      destruct H2 as [Hf Hnew]. cbn [fst snd].
      split; [intros u Hu; rewrite (Hf u Hu); apply Hf1; exact Hu|].
      intros _. exact Hnew.
    + destruct H1 as [_ [Hf1 _]]. cbn [fst snd].
      split; [exact Hf1|]. intros HE. discriminate HE.
Qed.

(** X12. [NewWithSalt] keeps the caller's slice, it does not copy the
    salt: when the caller later overwrites that slice with other bytes,
    [Sum(nil)] of the digest is computed with the new bytes. *)
Theorem NewWithSalt_keeps_the_callers_slice
    (salt : mem.slice) (bs : list byte) (d : mem.digest) (m m1 : mem.store) :
  mem.valid m salt -> length bs = mem.len salt ->
  mem.NewWithSalt salt m = (Ok d, m1) ->
  let m2 := snd (mem.builtin_copy salt bs m1) in
  mem.salt d = salt
  /\ mem.contents (snd (mem.digest_Sum growslice d None m2))
                  (fst (mem.digest_Sum growslice d None m2))
     = sha1.Sum bs ++ bs.
Proof.
  intros Hsalt Hlen HN m2.
  pose proof (mem_NewWithSalt_spec salt m Hsalt) as S. rewrite HN in S.
  destruct S as [He1 [Hf1 [Hnew [[Vi [Vs Hsep]] [Hs _]]]]].
  split; [exact Hs|]. rewrite Hs in Vs, Hsep.
  assert (Hi : mem.contents m1 (mem.internal d) = []).
  { unfold ssha1.NewWithSalt in Hnew.
    destruct (ssha1.len (mem.contents m salt) <? ssha1.MinSaltBytes);
      [discriminate Hnew|].
    injection Hnew as Hnew _. symmetry. exact Hnew. }
  pose proof (builtin_copy_spec salt bs m1 Vs Hlen) as C. unfold m2.
  destruct (mem.builtin_copy salt bs m1) as [n m2']. cbn [snd].
  destruct C as [_ [Hc [He2 Hf2]]].
  assert (Hwf2 : mem.wf m2' d).
  { split; [apply (valid_extends m1 m2' _ He2 Vi)|].
    split; [rewrite Hs; apply (valid_extends m1 m2' _ He2 Vs)|].
    rewrite Hs. exact Hsep. }
  pose proof (digest_Sum_nil_spec growslice d m2' Hwf2) as S.
  destruct (mem.digest_Sum growslice d None m2') as [s m3]. cbn [fst snd].
  destruct S as [-> _]. rewrite digest_Sum_eq. unfold mem.abs.
  cbn [ssha1.internal ssha1.salt]. rewrite Hs, Hc.
  rewrite (Hf2 _ Vi (separate_sym _ _ Hsep)), Hi. reflexivity.
Qed.

(** X13. [Write] copies: when the caller overwrites [p] after [Write(p)],
    the accumulated bytes of the digest are still the old ones followed by
    what [p] held at the call. *)
Theorem Write_copies_its_argument
    (d d' : mem.digest) (p : mem.slice) (bs : list byte)
    (res : Z * option error) (m m1 : mem.store) :
  mem.wf m d -> mem.valid m p -> mem.separate (mem.internal d) p ->
  length bs = mem.len p ->
  mem.digest_Write growslice d p m = (d', res, m1) ->
  mem.contents (snd (mem.builtin_copy p bs m1)) (mem.internal d')
  = mem.contents m (mem.internal d) ++ mem.contents m p.
Proof.
  intros Hwf Hp Hsep Hlen HW.
  pose proof (digest_Write_spec growslice d p m Hwf) as S. rewrite HW in S.
  destruct S as [Ha [[Vi _] [He [_ Hf]]]].
  destruct (Hf p Hp Hsep) as [_ Hsep'].
  pose proof (builtin_copy_spec p bs m1 (valid_extends m m1 _ He Hp) Hlen) as C.
  destruct (mem.builtin_copy p bs m1) as [n m2]. cbn [snd].
  destruct C as [_ [_ [_ Hf2]]].
  rewrite (Hf2 _ Vi (separate_sym _ _ Hsep')).
  apply (f_equal ssha1.internal) in Ha. exact Ha.
Qed.

End package_functions_frame.

Lemma Validate_reads_only_witness :
  mem.valid memdata.validate_store memdata.validate_hash
  /\ mem.valid memdata.validate_store memdata.validate_sample
  /\ fst (mem.Validate mem.example_growslice memdata.validate_hash
            memdata.validate_sample memdata.validate_store)
     = ssha1.Validate (mem.contents memdata.validate_store memdata.validate_hash)
         (mem.contents memdata.validate_store memdata.validate_sample).
Proof.
  assert (H1 : mem.valid memdata.validate_store memdata.validate_hash)
    by (exists testdata.validate_hash_1; split; [reflexivity|vm_compute; lia]).
  assert (H2 : mem.valid memdata.validate_store memdata.validate_sample)
    by (exists testdata.validate_sample_1; split; [reflexivity|vm_compute; lia]).
  split; [exact H1|]. split; [exact H2|].
  apply (Validate_reads_only mem.example_growslice memdata.validate_hash
           memdata.validate_sample memdata.validate_store H1 H2).
Defined.

Lemma Sum_reads_only_witness :
  mem.valid memdata.sum_store memdata.sum_data
  /\ mem.valid memdata.sum_store memdata.sum_salt
  /\ forall u, mem.valid memdata.sum_store u ->
       mem.contents (snd (mem.Sum mem.example_growslice memdata.sum_data
                            memdata.sum_salt [] memdata.sum_store)) u
       = mem.contents memdata.sum_store u.
Proof.
  assert (H1 : mem.valid memdata.sum_store memdata.sum_data)
    by (exists testdata.sum_plaintext_2; split; [reflexivity|vm_compute; lia]).
  assert (H2 : mem.valid memdata.sum_store memdata.sum_salt)
    by (exists testdata.sum_salt_2; split; [reflexivity|vm_compute; lia]).
  split; [exact H1|]. split; [exact H2|].
  apply (Sum_reads_only mem.example_growslice memdata.sum_data memdata.sum_salt
           [] memdata.sum_store H1 H2).
Defined.

Lemma NewWithSalt_keeps_the_callers_slice_witness :
  mem.valid memdata.sum_store memdata.sum_salt
  /\ length testdata.sum_salt_1 = mem.len memdata.sum_salt
  /\ mem.NewWithSalt memdata.sum_salt memdata.sum_store
     = (Ok (mem.Digest (Some (mem.Header 2 0 0 0)) memdata.sum_salt),
        memdata.sum_store ++ [[]])
  /\ mem.contents
       (snd (mem.digest_Sum mem.example_growslice
               (mem.Digest (Some (mem.Header 2 0 0 0)) memdata.sum_salt) None
               (snd (mem.builtin_copy memdata.sum_salt testdata.sum_salt_1
                       (memdata.sum_store ++ [[]])))))
       (fst (mem.digest_Sum mem.example_growslice
               (mem.Digest (Some (mem.Header 2 0 0 0)) memdata.sum_salt) None
               (snd (mem.builtin_copy memdata.sum_salt testdata.sum_salt_1
                       (memdata.sum_store ++ [[]])))))
     = sha1.Sum testdata.sum_salt_1 ++ testdata.sum_salt_1.
Proof.
  assert (H2 : mem.valid memdata.sum_store memdata.sum_salt)
    by (exists testdata.sum_salt_2; split; [reflexivity|vm_compute; lia]).
  split; [exact H2|]. split; [reflexivity|]. split; [reflexivity|].
  apply (NewWithSalt_keeps_the_callers_slice mem.example_growslice
           memdata.sum_salt testdata.sum_salt_1
           (mem.Digest (Some (mem.Header 2 0 0 0)) memdata.sum_salt)
           memdata.sum_store (memdata.sum_store ++ [[]]) H2);
    reflexivity.
Defined.

Lemma Write_copies_its_argument_witness :
  mem.wf mem.example_store mem.example_digest
  /\ mem.contents
       (snd (mem.builtin_copy (Some (mem.Header 1 0 3 3)) (bytes_of_string "xyz")
               (snd (mem.digest_Write mem.example_growslice mem.example_digest
                       (Some (mem.Header 1 0 3 3)) mem.example_store))))
       (mem.internal (fst (fst (mem.digest_Write mem.example_growslice
                                  mem.example_digest (Some (mem.Header 1 0 3 3))
                                  mem.example_store))))
     = mem.contents mem.example_store (mem.internal mem.example_digest)
       ++ mem.contents mem.example_store (Some (mem.Header 1 0 3 3)).
Proof.
  assert (Hwf : mem.wf mem.example_store mem.example_digest).
  { split; [|split].
    - exists (bytes_of_string "abc" ++ replicate 5 x00).
      split; [reflexivity|simpl; lia].
    - exists (bytes_of_string "XY"). split; [reflexivity|simpl; lia].
    - simpl. lia. }
  split; [exact Hwf|].
  apply (Write_copies_its_argument mem.example_growslice mem.example_digest
           (fst (fst (mem.digest_Write mem.example_growslice mem.example_digest
                        (Some (mem.Header 1 0 3 3)) mem.example_store)))
           (Some (mem.Header 1 0 3 3)) (bytes_of_string "xyz")
           (snd (fst (mem.digest_Write mem.example_growslice mem.example_digest
                        (Some (mem.Header 1 0 3 3)) mem.example_store)))
           mem.example_store
           (snd (mem.digest_Write mem.example_growslice mem.example_digest
                   (Some (mem.Header 1 0 3 3)) mem.example_store)) Hwf).
  - exists (bytes_of_string "abc"). split; [reflexivity|simpl; lia].
  - simpl. lia.
  - reflexivity.
  - reflexivity.
Defined.

(** X14. The slice [Sum(nil)] returns belongs to the caller: it lies in a
    new array, and a later [Write], [Sum] and [Reset] on the digest leave
    its elements as they were returned. *)
Theorem Sum_result_is_the_callers (growslice : nat -> nat -> nat)
    (d : mem.digest) (p : mem.slice) (m : mem.store) :
  mem.wf m d ->
  let '(r, m1) := mem.digest_Sum growslice d None m in
  let '(d2, _, m2) := mem.digest_Write growslice d p m1 in
  let '(r3, m3) := mem.digest_Sum growslice d2 None m2 in
  let '(d4, m4) := mem.digest_Reset d2 m3 in
  mem.contents m1 r = ssha1.digest_Sum (mem.abs m d) []
  /\ mem.contents m2 r = mem.contents m1 r
  /\ mem.contents m3 r = mem.contents m1 r
  /\ mem.contents m4 r = mem.contents m1 r
  /\ exists h, r = Some h /\ (length m <= mem.array h)%nat.
Proof.
  intros Hwf.
  pose proof (digest_Sum_nil_spec growslice d m Hwf) as S1.
  pose proof (digest_Sum_nil_fresh growslice d m Hwf) as F1.
  destruct (mem.digest_Sum growslice d None m) as [r m1].
  destruct S1 as [Hc1 [_ [Hw1 [Vr [He1 _]]]]].
  destruct F1 as [h [Hh [Harr Hsep]]]. cbn [fst] in Hh.
  assert (Hir : mem.separate (mem.internal d) r).
  { apply separate_sym. rewrite Hh. apply Hsep. apply Hwf. }
  pose proof (digest_Write_spec growslice d p m1 Hw1) as S2.
  destruct (mem.digest_Write growslice d p m1) as [[d2 res] m2].
  destruct S2 as [_ [Hw2 [He2 [_ Hf2]]]].
  destruct (Hf2 r Vr Hir) as [Hc2 Hir2].
  assert (Vr2 := valid_extends m1 m2 _ He2 Vr).
  pose proof (digest_Sum_nil_spec growslice d2 m2 Hw2) as S3.
  destruct (mem.digest_Sum growslice d2 None m2) as [r3 m3].
  destruct S3 as [_ [_ [Hw3 [_ [He3 Hf3]]]]].
  assert (Vr3 := valid_extends m2 m3 _ He3 Vr2).
  pose proof (digest_Reset_spec d2 m3 (proj1 (proj2 Hw3))) as S4.
  destruct (mem.digest_Reset d2 m3) as [d4 m4].
  destruct S4 as [_ [_ [_ [_ Hf4]]]].
  split; [exact Hc1|]. split; [exact Hc2|].
  split; [rewrite (Hf3 r Vr2 Hir2); exact Hc2|].
  split; [rewrite (proj1 (Hf4 r Vr3)), (Hf3 r Vr2 Hir2); exact Hc2|].
  exists h. split; [exact Hh|exact Harr].
Qed.

Lemma Sum_result_is_the_callers_witness :
  mem.wf mem.example_store mem.example_digest
  /\ let '(r, m1) := mem.digest_Sum mem.example_growslice mem.example_digest None
                       mem.example_store in
     let '(d2, _, m2) := mem.digest_Write mem.example_growslice mem.example_digest
                           (Some (mem.Header 1 0 3 3)) m1 in
     let '(r3, m3) := mem.digest_Sum mem.example_growslice d2 None m2 in
     let '(d4, m4) := mem.digest_Reset d2 m3 in
     mem.contents m1 r
     = ssha1.digest_Sum (mem.abs mem.example_store mem.example_digest) []
     /\ mem.contents m2 r = mem.contents m1 r
     /\ mem.contents m3 r = mem.contents m1 r
     /\ mem.contents m4 r = mem.contents m1 r
     /\ exists h, r = Some h /\ (length mem.example_store <= mem.array h)%nat.
Proof.
  assert (Hwf : mem.wf mem.example_store mem.example_digest).
  { split; [|split].
    - exists (bytes_of_string "abc" ++ replicate 5 x00).
      split; [reflexivity|simpl; lia].
    - exists (bytes_of_string "XY"). split; [reflexivity|simpl; lia].
    - simpl. lia. }
  split; [exact Hwf|].
  apply (Sum_result_is_the_callers mem.example_growslice mem.example_digest
           (Some (mem.Header 1 0 3 3)) mem.example_store Hwf).
Defined.
